(** * Pathfinder: the backtracking search of [path.c] (Path 1.2)

    A shallow embedding of [is_available], [is_blocked], [path_iter],
    [path_find] and [main] of Path 1.2, and of [path_iter], [path_find] and
    [main] of Pathfinder 1.0, with the properties of the search that follow
    from them.  Pathfinder 1.1, which is Pathfinder 1.0 with a progress
    report computed in single-precision floating point, is not modelled.

    Conventions of the embedding.
    - A C [int] is a [Z].  Signed overflow is undefined in C, so the model
      describes the runs in which no [int] operation overflows: the product
      [table_size.x * table_size.y], the sums [pos + delta[i]] and the
      increments of the counter.  A property whose truth depends on the
      value of one of these assumes that the value is one an [int] holds
      ([int_range], [count_fits] in Part 2); the other properties hold of
      the runs of the model whatever these values are.  The module
      [Wrapped] is the search with the 32-bit wrap-around of the compiled
      program written out, and [wrapped_agrees] shows that in that range
      it returns what the model in [Z] returns.
    - [int **table] is a list of rows, each a list of [int]; the cell
      [table[pos.y][pos.x]] is row [pos.y], column [pos.x].  An access
      outside the rows that exist is undefined in C; here it stops the
      run with [OutOfRange].
    - An array of moves together with its length ([delta], [delta_size])
      is a list of [Coords].
    - [int *iter] is an optional counter: [None] is the [NULL] pointer.
    - The recursion of [path_iter] is not structural; the embedding adds a
      recursion budget and stops with [OutOfFuel] when it is used up.
      [path_find] starts with one more than the number of cells, which is
      shown to be enough ([path_iter_Done]), and more would change nothing
      ([path_iter_more_fuel]). *)

From stdpp Require Import base tactics option list list_numbers numbers pretty.
From Stdlib Require Import ZArith Lia.

Local Open Scope Z_scope.

(** * Part 1.  The program *)

(** ** Data *)

(** [struct Coords]. *)
Record Coords : Type := mkCoords { x : Z; y : Z }.

Global Instance Coords_eq_dec : EqDecision Coords.
Proof. solve_decision. Defined.

(** The sum of a position and a move: [pos.x + delta[i].x], [pos.y + delta[i].y]. *)
Definition shift (pos d : Coords) : Coords :=
  {| x := x pos + x d; y := y pos + y d |}.

(** The default set of legal moves ([delta], [DELTA_SIZE] = 8). *)
Definition delta : list Coords :=
  [ mkCoords 1 2; mkCoords 2 1; mkCoords (-1) 2; mkCoords (-2) 1;
    mkCoords 1 (-2); mkCoords 2 (-1); mkCoords (-1) (-2); mkCoords (-2) (-1) ].

(** What the functions work on: the table the caller owns and the
    iteration counter behind [iter]. *)
Record State : Type := mkState { table : list (list Z); iter : option Z }.

(** ** Runs *)

Inductive result (A : Type) : Type :=
| Done (a : A)
| OutOfRange
| OutOfFuel.
Arguments Done {A} a.
Arguments OutOfRange {A}.
Arguments OutOfFuel {A}.

Definition M (A : Type) : Type := State → result (A * State).

Definition ret {A} (a : A) : M A := λ st, Done (a, st).

Definition bind {A B} (c : M A) (k : A → M B) : M B :=
  λ st, match c st with
        | Done (a, st') => k a st'
        | OutOfRange => OutOfRange
        | OutOfFuel => OutOfFuel
        end.

Declare Scope run_scope.
Delimit Scope run_scope with run.
Notation "'do' a <- c ; k" := (bind c (λ a, k))
  (at level 10, a name, c at level 100, k at level 200) : run_scope.
Notation "c ;; k" := (bind c (λ _, k))
  (at level 100, k at level 200, right associativity) : run_scope.
Local Open Scope run_scope.

(** ** Memory *)

(** The value of [table[p.y][p.x]], when that cell exists. *)
Definition cell (t : list (list Z)) (p : Coords) : option Z :=
  if (x p <? 0) || (y p <? 0) then None
  else match t !! Z.to_nat (y p) with
       | Some row => row !! Z.to_nat (x p)
       | None => None
       end.

(** The table after [table[p.y][p.x] = v]. *)
Definition poke (t : list (list Z)) (p : Coords) (v : Z) : list (list Z) :=
  alter (λ row, <[Z.to_nat (x p) := v]> row) (Z.to_nat (y p)) t.

Definition load (p : Coords) : M Z :=
  λ st, match cell (table st) p with
        | Some v => Done (v, st)
        | None => OutOfRange
        end.

Definition store (p : Coords) (v : Z) : M unit :=
  λ st, match cell (table st) p with
        | Some _ => Done (tt, mkState (poke (table st) p v) (iter st))
        | None => OutOfRange
        end.

(** The counter behind [iter] goes up by one, when [iter] is not [NULL]. *)
Definition count_iter : M unit :=
  λ st, Done (tt, mkState (table st) (Z.succ <$> iter st)).

(** The counter behind [iter] is set to zero, when [iter] is not [NULL]. *)
Definition clear_iter : M unit :=
  λ st, Done (tt, mkState (table st) ((λ _, 0) <$> iter st)).

(** ** Loops *)

(** [for(...) { if(f(l[i])) return ...; }]: runs [f] on the elements in
    order and stops at the first one for which it answers true. *)
Fixpoint until {A} (f : A → M bool) (l : list A) : M bool :=
  match l with
  | [] => ret false
  | a :: l' => do b <- f a; if b then ret true else until f l'
  end.

(** [for(...) f(l[i]);] *)
Fixpoint each {A} (f : A → M unit) (l : list A) : M unit :=
  match l with
  | [] => ret tt
  | a :: l' => f a;; each f l'
  end.

(** ** The functions of [path.c] *)

Definition is_available (table_size pos : Coords) : M bool :=
  if (x pos <? 0) || (x pos >=? x table_size) || (y pos <? 0)
     || (y pos >=? y table_size)
  then ret false
  else do v <- load pos;
       if v =? 0 then ret true else ret false.

Definition is_blocked (table_size : Coords) (delta : list Coords)
    (pos : Coords) : M bool :=
  do free <- until (λ d, is_available table_size (shift pos d)) delta;
  if free then ret false else ret true.

(** The loop under [#if ENABLE_CHECK]: is some move from [pos] to an
    available position that is boxed in? *)
Definition blocks_open_space (table_size : Coords) (delta : list Coords)
    (pos : Coords) : M bool :=
  until (λ d, do a <- is_available table_size (shift pos d);
              if a then is_blocked table_size delta (shift pos d)
              else ret false) delta.

(** [path_iter]; [ENABLE_CHECK] is the macro of that name. *)
Fixpoint path_iter (ENABLE_CHECK : bool) (fuel : nat) (table_size : Coords)
    (delta : list Coords) (pos : Coords) (moves : Z) : M bool :=
  match fuel with
  | O => λ _, OutOfFuel
  | S fuel' =>
    count_iter;;
    if moves >=? x table_size * y table_size then ret true
    else
      do a <- is_available table_size pos;
      if negb a then ret false
      else
        let moves := moves + 1 in
        store pos moves;;
        do boxed <- (if ENABLE_CHECK && (moves <? x table_size * y table_size - 1)
                     then blocks_open_space table_size delta pos
                     else ret false);
        if boxed then store pos 0;; ret false
        else
          do found <- until (λ d, path_iter ENABLE_CHECK fuel' table_size delta
                                    (shift pos d) moves) delta;
          if found then ret true
          else store pos 0;; ret false
  end.

(** The two loops that fill the table with zeros. *)
Definition fill_zeros (table_size : Coords) : M unit :=
  each (λ i, each (λ j, store (mkCoords j i) 0) (seqZ 0 (x table_size)))
       (seqZ 0 (y table_size)).

Definition path_find (ENABLE_CHECK : bool) (table_size : Coords)
    (delta : list Coords) (pos : Coords) : M bool :=
  fill_zeros table_size;;
  clear_iter;;
  path_iter ENABLE_CHECK (S (Z.to_nat (x table_size * y table_size)))
            table_size delta pos 0.

(** * Part 2.  The vocabulary of the properties *)

(** ** The range of [int] *)

(** The least and the greatest value of the 32-bit [int] the program is
    compiled with. *)
Definition INT_MIN : Z := -2147483648.
Definition INT_MAX : Z := 2147483647.

(** The value is one that an [int] holds: the operation that computes it
    does not overflow. *)
Definition int_range (v : Z) : Prop := INT_MIN ≤ v ≤ INT_MAX.

(** The counter that a run leaves behind [iter] is one that an [int] holds.
    The counter only goes up, so when it starts in range no increment of
    the run has overflowed. *)
Definition count_fits (res : result (bool * State)) : Prop :=
  match res with
  | Done (_, s) => match iter s with Some n => int_range n | None => True end
  | _ => True
  end.

(** ** Tables and positions *)

(** A table of [h] rows and [w] columns holding [v] everywhere. *)
Definition blank (w h : nat) (v : Z) : list (list Z) :=
  replicate h (replicate w v).

(** The table has exactly the rows and columns [table_size] announces. *)
Definition shaped (table_size : Coords) (t : list (list Z)) : Prop :=
  length t = Z.to_nat (y table_size) ∧
  Forall (λ row, length row = Z.to_nat (x table_size)) t.

(** The position lies in [0,width) x [0,height). *)
Definition inside (table_size p : Coords) : Prop :=
  0 ≤ x p < x table_size ∧ 0 ≤ y p < y table_size.

(** The position can be moved to: it is inside the table and no move
    has been recorded there. *)
Definition available (table_size : Coords) (t : list (list Z))
    (p : Coords) : Prop :=
  inside table_size p ∧ cell t p = Some 0.

(** [available], as a test on the table. *)
Definition open (table_size : Coords) (t : list (list Z)) (p : Coords) : bool :=
  negb ((x p <? 0) || (x p >=? x table_size) || (y p <? 0)
        || (y p >=? y table_size))
  && match cell t p with Some v => v =? 0 | None => false end.

(** No move from [p] leads to an open position. *)
Definition walled (table_size : Coords) (dl : list Coords)
    (t : list (list Z)) (p : Coords) : bool :=
  forallb (λ d, negb (open table_size t (shift p d))) dl.

(** Some move from [p] leads to an open position that is walled. *)
Definition orphans (table_size : Coords) (dl : list Coords)
    (t : list (list Z)) (p : Coords) : bool :=
  existsb (λ d, open table_size t (shift p d)
                && walled table_size dl t (shift p d)) dl.

(** Every cell that holds a move number in [t] holds the same one in [t']. *)
Definition grows (t t' : list (list Z)) : Prop :=
  ∀ q v, cell t q = Some v → v ≠ 0 → cell t' q = Some v.

(** The number of cells of a row, of a table, that hold 0. *)
Fixpoint row_zeros (row : list Z) : nat :=
  match row with
  | [] => 0
  | v :: row' => (if v =? 0 then 1 else 0) + row_zeros row'
  end.

Fixpoint zeros (t : list (list Z)) : nat :=
  match t with
  | [] => 0
  | row :: t' => row_zeros row + zeros t'
  end.

(** ** States of a run *)

(** The state after the counter has gone up. *)
Definition counted (st : State) : State :=
  mkState (table st) (Z.succ <$> iter st).

(** The state after the counter has gone up and [pos] has been marked as
    move [m+1]. *)
Definition marked (pos : Coords) (m : Z) (st : State) : State :=
  mkState (poke (table st) pos (m + 1)) (Z.succ <$> iter st).

(** What [path_find] makes of the counter before the search. *)
Definition zeroed (i : option Z) : option Z := (λ _, 0) <$> i.

(** What [path_find] hands to the first call of [path_iter]. *)
Definition start_state (sz : Coords) (st : State) : State :=
  mkState (blank (Z.to_nat (x sz)) (Z.to_nat (y sz)) 0) (zeroed (iter st)).

(** The last statement of a failed call, [table[pos] = 0], and its answer. *)
Definition unmark (pos : Coords) (s : State) : result (bool * State) :=
  match cell (table s) pos with
  | Some _ => Done (false, mkState (poke (table s) pos 0) (iter s))
  | None => OutOfRange
  end.

(** The rounds of a loop over [l] put the table [t] back when they answer
    false. *)
Definition restoring {A} (f : A → M bool) (t : list (list Z))
    (l : list A) : Prop :=
  ∀ a st s, a ∈ l → table st = t → f a st = Done (false, s) → table s = t.

(** ** Move tables and paths *)

(** The move table holds the opposite of each of its moves. *)
Definition symmetric (dl : list Coords) : Prop :=
  ∀ d, d ∈ dl → mkCoords (- x d) (- y d) ∈ dl.

(** The cells holding 1..[m] are pairwise distinct, no other cell is
    nonzero, and the cell holding [k+1] is one move of the table away from
    the cell holding [k]. *)
Definition simple_path (dl : list Coords) (t : list (list Z)) (m : Z) : Prop :=
  0 ≤ m
  ∧ (∀ k, 1 ≤ k ≤ m → ∃ p, cell t p = Some k)
  ∧ (∀ p q k, k ≠ 0 → cell t p = Some k → cell t q = Some k → p = q)
  ∧ (∀ p v, cell t p = Some v → 0 ≤ v ≤ m)
  ∧ (∀ p q k, 1 ≤ k → cell t p = Some k → cell t q = Some (k + 1) →
              ∃ d, d ∈ dl ∧ q = mkCoords (x p + x d) (y p + y d)).

(** [pos] is one move of the table away from the cell holding [m], the end
    of the path so far (nothing to ask while the path is empty). *)
Definition joins (dl : list Coords) (t : list (list Z)) (m : Z)
    (pos : Coords) : Prop :=
  ∀ p, 1 ≤ m → cell t p = Some m →
       ∃ d, d ∈ dl ∧ pos = mkCoords (x p + x d) (y p + y d).

(** [enters c sz dl start st0 fuel st pos m]: in the run of
    [path_find c sz dl start] on [st0], [path_iter] is called with [fuel] on
    the state [st], for the position [pos] and with [m] moves made.  The
    first call is the one [path_find] makes, after the table is filled with
    zeros and the counter cleared.  A call that has not filled the table,
    finds its position available, marks it and passes the check, then calls
    for a move [d] of the table once the calls for the moves before [d]
    have answered false. *)
Inductive enters (c : bool) (sz : Coords) (dl : list Coords) (start : Coords)
    (st0 : State) : nat → State → Coords → Z → Prop :=
| enters_first st :
    (fill_zeros sz;; clear_iter) st0 = Done (tt, st) →
    enters c sz dl start st0 (S (Z.to_nat (x sz * y sz))) st start 0
| enters_next fuel st pos m l1 d l2 st1 :
    enters c sz dl start st0 (S fuel) st pos m →
    (m >=? x sz * y sz) = false →
    is_available sz pos (counted st) = Done (true, counted st) →
    (if c && (m + 1 <? x sz * y sz - 1) then blocks_open_space sz dl pos
     else ret false) (marked pos m st) = Done (false, marked pos m st) →
    dl = l1 ++ d :: l2 →
    until (λ d, path_iter c fuel sz dl (shift pos d) (m + 1)) l1
          (marked pos m st) = Done (false, st1) →
    enters c sz dl start st0 fuel st1 (shift pos d) (m + 1).

(** The tour found on the 5x5 board from the corner. *)
Definition tour_5x5 : list (list Z) :=
  [ [1; 6; 15; 10; 21]; [14; 9; 20; 5; 16]; [19; 2; 7; 22; 11];
    [8; 13; 24; 17; 4]; [25; 18; 3; 12; 23] ].

(** ** The entry point of [path.c]

    [main] takes its board from the macros [COLS], [ROWS], [START_X] and
    [START_Y], which are parameters here, and the moves from [delta].  What
    it writes to the standard output is the text it returns, next to its
    exit status.  [calloc] is taken to succeed (it gives rows of zeros), and
    [free] leaves nothing to observe.  [iter] is the value the local variable
    of that name happens to hold before [path_find] clears it. *)

(** [putchar('\n')], and the line feed that ends the messages. *)
Definition newline : string := String (Ascii.ascii_of_nat 10) EmptyString.

Fixpoint spaces (n : nat) : string :=
  match n with
  | O => EmptyString
  | S n' => String (Ascii.ascii_of_nat 32) (spaces n')
  end.

(** [printf("%5d", v)]: the decimal digits of [v], with spaces before them
    up to five characters. *)
Definition printf_5d (v : Z) : string :=
  spaces (5 - String.length (pretty v)) +:+ pretty v.

(** [printf("No path found.\n")]. *)
Definition printf_no_path : string := "No path found." +:+ newline.

(** [printf("Calculation completed after %d iterations.\n", iter)]. *)
Definition printf_iterations (n : Z) : string :=
  "Calculation completed after " +:+ pretty n +:+ " iterations." +:+ newline.

(** The inner loop of the display: the cells of row [i]. *)
Fixpoint print_cells (t : list (list Z)) (i : Z) (js : list Z) : option string :=
  match js with
  | [] => Some EmptyString
  | j :: js' =>
    v ← cell t (mkCoords j i);
    rest ← print_cells t i js';
    Some (printf_5d v +:+ rest)
  end.

(** The outer loop of the display: each row, then a line feed. *)
Fixpoint print_rows (t : list (list Z)) (COLS : Z) (rows : list Z) : option string :=
  match rows with
  | [] => Some EmptyString
  | i :: rows' =>
    row ← print_cells t i (seqZ 0 COLS);
    rest ← print_rows t COLS rows';
    Some (row +:+ newline +:+ rest)
  end.

Definition main (ENABLE_CHECK : bool) (COLS ROWS START_X START_Y : Z)
    (iter0 : Z) : result (Z * string) :=
  let size := mkCoords COLS ROWS in
  let pos := mkCoords START_X START_Y in
  match path_find ENABLE_CHECK size delta pos
          (mkState (blank (Z.to_nat COLS) (Z.to_nat ROWS) 0) (Some iter0)) with
  | Done (found, st) =>
    match (if negb found then Some printf_no_path
           else print_rows (table st) COLS (seqZ 0 ROWS)), iter st with
    | Some out, Some n => Done (0, out +:+ printf_iterations n)
    | _, _ => OutOfRange
    end
  | OutOfRange => OutOfRange
  | OutOfFuel => OutOfFuel
  end.

(** ** Pathfinder 1.0, the first version in [path.c]

    [path_iter] tests the position itself, has no look-ahead and counts
    nothing; [path_find] and [main] are as above but for the counter, and
    [main] stops after the message when no path is found. *)
Module V1_0.

Fixpoint path_iter (fuel : nat) (table_size : Coords) (delta : list Coords)
    (pos : Coords) (moves : Z) : M bool :=
  match fuel with
  | O => λ _, OutOfFuel
  | S fuel' =>
    if moves >=? x table_size * y table_size then ret true
    else if (x pos <? 0) || (x pos >=? x table_size) || (y pos <? 0)
            || (y pos >=? y table_size)
    then ret false
    else
      do v <- load pos;
      if negb (v =? 0) then ret false
      else
        let moves := moves + 1 in
        store pos moves;;
        do found <- until (λ d, path_iter fuel' table_size delta
                                  (shift pos d) moves) delta;
        if found then ret true
        else store pos 0;; ret false
  end.

Definition path_find (table_size : Coords) (delta : list Coords)
    (pos : Coords) : M bool :=
  fill_zeros table_size;;
  path_iter (S (Z.to_nat (x table_size * y table_size))) table_size delta pos 0.

Definition main (COLS ROWS START_X START_Y : Z) : result (Z * string) :=
  let size := mkCoords COLS ROWS in
  let pos := mkCoords START_X START_Y in
  match path_find size delta pos
          (mkState (blank (Z.to_nat COLS) (Z.to_nat ROWS) 0) None) with
  | Done (found, st) =>
    if negb found then Done (0, printf_no_path)
    else match print_rows (table st) COLS (seqZ 0 ROWS) with
         | Some out => Done (0, out)
         | None => OutOfRange
         end
  | OutOfRange => OutOfRange
  | OutOfFuel => OutOfFuel
  end.

End V1_0.

(** ** The arithmetic of the compiled program

    Where the model above computes in [Z], the compiled program computes in
    32-bit [int]s, which wrap around modulo [2^32] (two's complement).
    [Wrapped] is the search with that arithmetic written out at every
    operation on [int]s: the sums of [pos] and a move, the product
    [table_size.x * table_size.y], [moves++], the difference in the guard of
    the check, and the increment of the counter.  [is_available] only
    compares, and is the one above. *)

(** The [int] that a 32-bit computation gives for the value [v]. *)
Definition wrap (v : Z) : Z := (v + 2147483648) mod 4294967296 - 2147483648.

Module Wrapped.

Definition shift (pos d : Coords) : Coords :=
  {| x := wrap (x pos + x d); y := wrap (y pos + y d) |}.

Definition count_iter : M unit :=
  λ st, Done (tt, mkState (table st) ((λ i, wrap (i + 1)) <$> iter st)).

Definition is_blocked (table_size : Coords) (delta : list Coords)
    (pos : Coords) : M bool :=
  do free <- until (λ d, is_available table_size (shift pos d)) delta;
  if free then ret false else ret true.

Definition blocks_open_space (table_size : Coords) (delta : list Coords)
    (pos : Coords) : M bool :=
  until (λ d, do a <- is_available table_size (shift pos d);
              if a then is_blocked table_size delta (shift pos d)
              else ret false) delta.

Fixpoint path_iter (ENABLE_CHECK : bool) (fuel : nat) (table_size : Coords)
    (delta : list Coords) (pos : Coords) (moves : Z) : M bool :=
  match fuel with
  | O => λ _, OutOfFuel
  | S fuel' =>
    count_iter;;
    if moves >=? wrap (x table_size * y table_size) then ret true
    else
      do a <- is_available table_size pos;
      if negb a then ret false
      else
        let moves := wrap (moves + 1) in
        store pos moves;;
        do boxed <- (if ENABLE_CHECK
                        && (moves <? wrap (wrap (x table_size * y table_size) - 1))
                     then blocks_open_space table_size delta pos
                     else ret false);
        if boxed then store pos 0;; ret false
        else
          do found <- until (λ d, path_iter ENABLE_CHECK fuel' table_size delta
                                    (shift pos d) moves) delta;
          if found then ret true
          else store pos 0;; ret false
  end.

Definition path_find (ENABLE_CHECK : bool) (table_size : Coords)
    (delta : list Coords) (pos : Coords) : M bool :=
  fill_zeros table_size;;
  clear_iter;;
  path_iter ENABLE_CHECK (S (Z.to_nat (wrap (x table_size * y table_size))))
            table_size delta pos 0.

End Wrapped.

(** ** Tours *)

(** Each position of the list is one move of the table away from the one
    before it. *)
Fixpoint linked (dl : list Coords) (ps : list Coords) : Prop :=
  match ps with
  | p :: (q :: _) as ps' =>
    (∃ d, d ∈ dl ∧ q = mkCoords (x p + x d) (y p + y d)) ∧ linked dl ps'
  | _ => True
  end.

(** [ps] is a tour of the board from [start]: it lists every cell of the
    board once, starts at [start], and goes from cell to cell by moves of the
    table. *)
Definition tour (sz : Coords) (dl : list Coords) (start : Coords)
    (ps : list Coords) : Prop :=
  Z.of_nat (length ps) = x sz * y sz
  ∧ NoDup ps
  ∧ (∀ p, p ∈ ps → inside sz p)
  ∧ head ps = Some start
  ∧ linked dl ps.

(** The table numbers the positions of [ps] 1, 2, ... in order. *)
Definition numbers (t : list (list Z)) (ps : list Coords) : Prop :=
  ∀ k p, ps !! k = Some p → cell t p = Some (Z.of_nat k + 1).

(** ** The counter, seen from outside *)

(** The state with the counter replaced by what [h] makes of it. *)
Definition with_iter (h : option Z → option Z) (st : State) : State :=
  mkState (table st) (h (iter st)).

(** The same, in the outcome of a run. *)
Definition lift_iter {A} (h : option Z → option Z)
    (res : result (A * State)) : result (A * State) :=
  match res with
  | Done (a, s) => Done (a, with_iter h s)
  | OutOfRange => OutOfRange
  | OutOfFuel => OutOfFuel
  end.

(** A computation that does the same whatever [h] makes of the counter. *)
Definition iter_blind {A} (h : option Z → option Z) (c : M A) : Prop :=
  ∀ st, c (with_iter h st) = lift_iter h (c st).

(** A call writes only into cells that held 0, and only numbers of moves
    after [m], up to [n]. *)
Definition marks_between (m n : Z) (t t' : list (list Z)) : Prop :=
  ∀ q, cell t' q = cell t q
       ∨ (cell t q = Some 0 ∧ ∃ v, cell t' q = Some v ∧ m < v ≤ n).

(** ** The text of the display *)

(** The lines, each followed by a line feed. *)
Fixpoint unlines (ls : list string) : string :=
  match ls with
  | [] => EmptyString
  | l :: ls' => l +:+ newline +:+ unlines ls'
  end.

(** A space (code 32) or a decimal digit (codes 48 to 57). *)
Definition field_char (a : Ascii.ascii) : bool :=
  let n := Ascii.N_of_ascii a in
  (n =? 32)%N || ((48 <=? n)%N && (n <=? 57)%N).

(** The text holds spaces and digits only. *)
Fixpoint plain (s : string) : bool :=
  match s with
  | EmptyString => true
  | String a s' => field_char a && plain s'
  end.

(** ** The number of calls *)

(** One call, and as many as [k-1] cells allow for each of [d] moves. *)
Fixpoint call_bound (d : Z) (k : nat) : Z :=
  match k with
  | O => 1
  | S k' => 1 + d * call_bound d k'
  end.

(** ** The two arithmetics *)

(** [c'] does on a state with the counter [h i] what [c] does on the state
    with the counter [i], up to [h] on the counter it leaves. *)
Definition simulates {A} (h : option Z → option Z) (c' c : M A) : Prop :=
  ∀ st, c' (with_iter h st) = lift_iter h (c st).

(** The same position, or two positions outside the board. *)
Definition same_or_outside (sz p' p : Coords) : Prop :=
  p' = p ∨ (¬ inside sz p' ∧ ¬ inside sz p).

(** * Part 3.  Facts about the embedding *)

(** ** Tests on integers *)

Lemma geb_cases m n :
  (n ≤ m ∧ (m >=? n) = true) ∨ (m < n ∧ (m >=? n) = false).
Proof.
  rewrite Z.geb_leb. destruct (Z.leb_spec n m); [left|right]; done.
Qed.

Lemma geb_false m n : m < n → (m >=? n) = false.
Proof. intros H. destruct (geb_cases m n) as [[? _]|[_ ->]]; [lia|done]. Qed.

Lemma geb_true m n : n ≤ m → (m >=? n) = true.
Proof. intros H. destruct (geb_cases m n) as [[_ ->]|[? _]]; [done|lia]. Qed.

(** ** Cells *)

Lemma Coords_eq (p q : Coords) : x p = x q → y p = y q → p = q.
Proof. destruct p, q; simpl; congruence. Qed.

Lemma shaped_row {sz t i row} :
  shaped sz t → t !! i = Some row → length row = Z.to_nat (x sz).
Proof.
  intros [_ Hrows] Hi. rewrite Forall_lookup in Hrows. exact (Hrows _ _ Hi).
Qed.

Lemma nonneg_test p : 0 ≤ x p → 0 ≤ y p → (x p <? 0) || (y p <? 0) = false.
Proof. intros Hx Hy. apply orb_false_iff; split; apply Z.ltb_ge; lia. Qed.

Lemma cell_inside sz t p : shaped sz t → inside sz p → is_Some (cell t p).
Proof.
  intros Hsh [Hx Hy]. unfold cell. rewrite nonneg_test by lia.
  destruct (lookup_lt_is_Some_2 t (Z.to_nat (y p))) as [row Hrow].
  { destruct Hsh as [-> _]. lia. }
  rewrite Hrow. apply lookup_lt_is_Some_2. rewrite (shaped_row Hsh Hrow). lia.
Qed.

Lemma cell_Some_nonneg {t p v} : cell t p = Some v → 0 ≤ x p ∧ 0 ≤ y p.
Proof.
  unfold cell. destruct (x p <? 0) eqn:Hx; [done|].
  destruct (y p <? 0) eqn:Hy; [done|]. intros _.
  apply Z.ltb_ge in Hx, Hy. done.
Qed.

Lemma cell_rows {t p v} :
  cell t p = Some v →
  ∃ row, t !! Z.to_nat (y p) = Some row ∧ row !! Z.to_nat (x p) = Some v.
Proof.
  unfold cell. destruct ((x p <? 0) || (y p <? 0)); [done|].
  destruct (t !! Z.to_nat (y p)) as [row|]; [|done]. by exists row.
Qed.

Lemma shaped_poke sz t p v : shaped sz t → shaped sz (poke t p v).
Proof.
  intros [Hlen Hrows]. unfold poke. split.
  - by rewrite length_alter.
  - apply Forall_alter; [done|]. intros row _ Hrow. by rewrite length_insert.
Qed.

Lemma cell_poke_eq t p v0 v : cell t p = Some v0 → cell (poke t p v) p = Some v.
Proof.
  intros Hc. destruct (cell_rows Hc) as (row & Hrow & Hj).
  destruct (cell_Some_nonneg Hc). unfold cell, poke.
  rewrite nonneg_test, list_lookup_alter_eq, Hrow by done. simpl.
  apply list_lookup_insert_eq. by eapply lookup_lt_Some.
Qed.

Lemma cell_poke_ne t p q v :
  0 ≤ x p → 0 ≤ y p → p ≠ q → cell (poke t p v) q = cell t q.
Proof.
  intros Hx Hy Hne. unfold cell, poke.
  destruct (x q <? 0) eqn:Hqx; [done|].
  destruct (y q <? 0) eqn:Hqy; [done|]. simpl.
  apply Z.ltb_ge in Hqx, Hqy.
  destruct (decide (Z.to_nat (y p) = Z.to_nat (y q))) as [Heq|Hney].
  - rewrite <- Heq, list_lookup_alter_eq.
    destruct (t !! Z.to_nat (y p)) as [row|]; [|done]. simpl.
    apply list_lookup_insert_ne. intros Hxx. apply Hne.
    apply Coords_eq; lia.
  - by rewrite list_lookup_alter_ne.
Qed.

(** The cells of the table after [table[p] = v], for a [p] that exists. *)
Lemma cell_poke t p q v0 v :
  cell t p = Some v0 →
  cell (poke t p v) q = if decide (p = q) then Some v else cell t q.
Proof.
  intros Hc. destruct (decide (p = q)) as [<-|Hne].
  - by eapply cell_poke_eq.
  - destruct (cell_Some_nonneg Hc). by apply cell_poke_ne.
Qed.

(** Writing back what a cell held undoes a write. *)
Lemma poke_undo t p v0 v : cell t p = Some v0 → poke (poke t p v) p v0 = t.
Proof.
  intros Hc. destruct (cell_rows Hc) as (row & Hrow & Hj). unfold poke.
  apply list_eq. intros i.
  destruct (decide (i = Z.to_nat (y p))) as [->|Hne].
  - rewrite !list_lookup_alter_eq, Hrow. simpl. f_equal.
    rewrite list_insert_insert_eq. by apply list_insert_id.
  - by rewrite !list_lookup_alter_ne.
Qed.

Lemma open_inside {sz t p} : open sz t p = true → inside sz p ∧ cell t p = Some 0.
Proof.
  unfold open, inside. intros H. apply andb_true_iff in H as [Hin Hc].
  apply negb_true_iff in Hin.
  repeat (apply orb_false_iff in Hin as [Hin ?]).
  destruct (cell t p) as [v|]; [|done].
  apply Z.eqb_eq in Hc. subst v. split; [lia|done].
Qed.

Lemma open_available sz t p : open sz t p = true ↔ available sz t p.
Proof.
  split; [apply open_inside|]. intros [[Hx Hy] Hc]. unfold open.
  rewrite Hc. apply andb_true_iff. split; [|done].
  apply negb_true_iff. repeat (apply orb_false_iff; split); lia.
Qed.

(** On a table without cells no position is open. *)
Lemma open_no_cells sz t p : ¬ (0 < x sz ∧ 0 < y sz) → open sz t p = false.
Proof.
  intros Hdeg. apply not_true_is_false. intros Hopen.
  apply open_inside in Hopen as [[Hx Hy] _]. lia.
Qed.

Lemma open_poke_other sz t p q v :
  cell t p = Some 0 → p ≠ q → open sz (poke t p v) q = open sz t q.
Proof.
  intros Hc Hne. unfold open. rewrite (cell_poke _ _ _ _ _ Hc).
  by case_decide.
Qed.

Lemma open_poke_false sz t p q v :
  cell t p = Some 0 → v ≠ 0 → open sz t q = false → open sz (poke t p v) q = false.
Proof.
  intros Hc Hv Hq. destruct (decide (p = q)) as [<-|Hne].
  - unfold open. rewrite (cell_poke_eq _ _ 0) by done.
    apply Z.eqb_neq in Hv. rewrite Hv. apply andb_false_r.
  - by rewrite open_poke_other.
Qed.

Lemma walled_existsb sz dl t p :
  walled sz dl t p = negb (existsb (λ d, open sz t (shift p d)) dl).
Proof.
  unfold walled. induction dl as [|d dl IH]; simpl; [done|].
  rewrite IH. by destruct (open sz t (shift p d)).
Qed.

Lemma walled_not_open {sz dl t n} d :
  walled sz dl t n = true → d ∈ dl → open sz t (shift n d) = false.
Proof.
  unfold walled. rewrite forallb_forall. intros H Hd.
  apply list_elem_of_In, H in Hd. by apply negb_true_iff.
Qed.

Lemma walled_poke sz dl t p n v :
  cell t p = Some 0 → v ≠ 0 →
  walled sz dl t n = true → walled sz dl (poke t p v) n = true.
Proof.
  intros Hc Hv. unfold walled. rewrite !forallb_forall.
  intros H d Hd. specialize (H d Hd). apply negb_true_iff in H.
  apply negb_true_iff. by apply open_poke_false.
Qed.

Lemma orphans_witness {sz dl t pos} :
  orphans sz dl t pos = true →
  ∃ n, open sz t n = true ∧ walled sz dl t n = true.
Proof.
  unfold orphans. rewrite existsb_exists. intros (d & _ & H).
  apply andb_true_iff in H. by exists (shift pos d).
Qed.

Lemma walled_same sz dl dl' t p :
  (∀ d, d ∈ dl ↔ d ∈ dl') → walled sz dl t p = walled sz dl' t p.
Proof.
  intros Hsame. apply eq_true_iff_eq. unfold walled. rewrite !forallb_forall.
  split; intros H d Hd; apply H; apply list_elem_of_In;
    apply list_elem_of_In in Hd; by apply Hsame.
Qed.

Lemma orphans_same sz dl dl' t p :
  (∀ d, d ∈ dl ↔ d ∈ dl') → orphans sz dl t p = orphans sz dl' t p.
Proof.
  intros Hsame. apply eq_true_iff_eq. unfold orphans. rewrite !existsb_exists.
  split; intros (d & Hd & H); exists d;
    (split; [apply list_elem_of_In; apply list_elem_of_In in Hd; by apply Hsame|]).
  - by rewrite <- (walled_same sz dl dl').
  - by rewrite (walled_same sz dl dl').
Qed.

(** ** Blank tables *)

Lemma shaped_blank sz v : shaped sz (blank (Z.to_nat (x sz)) (Z.to_nat (y sz)) v).
Proof.
  unfold blank. split; [by rewrite length_replicate|].
  apply Forall_replicate. by rewrite length_replicate.
Qed.

Lemma shaped_start sz st : shaped sz (table (start_state sz st)).
Proof. apply shaped_blank. Qed.

Lemma cell_blank w h v p u : cell (blank w h v) p = Some u → u = v.
Proof.
  intros Hc. destruct (cell_rows Hc) as (row & Hrow & Hj). unfold blank in Hrow.
  apply lookup_replicate in Hrow as [-> _].
  by apply lookup_replicate in Hj as [-> _].
Qed.

Create HintDb shape discriminated.
#[local] Hint Resolve shaped_poke shaped_blank shaped_start : shape.

(** ** Growing tables *)

Lemma grows_refl t : grows t t.
Proof. by intros q v. Qed.

Lemma grows_trans t1 t2 t3 : grows t1 t2 → grows t2 t3 → grows t1 t3.
Proof. intros H12 H23 q v Hq Hv. apply H23; [|done]. by apply H12. Qed.

Lemma grows_poke t pos v : cell t pos = Some 0 → grows t (poke t pos v).
Proof.
  intros Hc q u Hq Hu. rewrite (cell_poke _ _ _ _ _ Hc).
  case_decide; [congruence|done].
Qed.

(** ** Counting the cells still to fill *)

Lemma row_zeros_insert row : ∀ j v,
  row !! j = Some 0 → v ≠ 0 →
  (row_zeros (<[j:=v]> row) + 1 = row_zeros row)%nat.
Proof.
  induction row as [|u row IH]; intros [|j] v Hj Hv; simpl in *; try done.
  - injection Hj as ->. apply Z.eqb_neq in Hv. rewrite Hv. simpl. lia.
  - specialize (IH j v Hj Hv). lia.
Qed.

Lemma row_zeros_lookup row : ∀ j, row !! j = Some 0 → (1 ≤ row_zeros row)%nat.
Proof.
  induction row as [|u row IH]; intros [|j] Hj; simpl in *; try done.
  - injection Hj as ->. simpl. lia.
  - specialize (IH j Hj). lia.
Qed.

Lemma zeros_alter (f : list Z → list Z) t : ∀ i row,
  t !! i = Some row →
  (zeros (alter f i t) + row_zeros row = zeros t + row_zeros (f row))%nat.
Proof.
  induction t as [|r t IH]; intros [|i] row Hi; simpl in *; try done.
  - injection Hi as ->. lia.
  - specialize (IH i row Hi).
    change (alter f (S i) (r :: t)) with (r :: alter f i t). simpl.
    change (list_alter f i t) with (alter f i t). lia.
Qed.

Lemma zeros_lookup t : ∀ i row, t !! i = Some row → (row_zeros row ≤ zeros t)%nat.
Proof.
  induction t as [|r t IH]; intros [|i] row Hi; simpl in *; try done.
  - injection Hi as ->. lia.
  - specialize (IH i row Hi). lia.
Qed.

(** Marking an empty cell leaves one cell fewer to fill. *)
Lemma zeros_poke t p v :
  cell t p = Some 0 → v ≠ 0 → (zeros (poke t p v) + 1 = zeros t)%nat.
Proof.
  intros Hc Hv. destruct (cell_rows Hc) as (row & Hrow & Hj). unfold poke.
  pose proof (zeros_alter (λ row, <[Z.to_nat (x p):=v]> row) t _ _ Hrow).
  pose proof (row_zeros_insert row _ v Hj Hv). simpl in *. lia.
Qed.

Lemma zeros_one t p : cell t p = Some 0 → (1 ≤ zeros t)%nat.
Proof.
  intros Hc. destruct (cell_rows Hc) as (row & Hrow & Hj).
  pose proof (zeros_lookup _ _ _ Hrow). pose proof (row_zeros_lookup _ _ Hj).
  lia.
Qed.

Lemma zeros_two t p q :
  cell t p = Some 0 → cell t q = Some 0 → p ≠ q → (2 ≤ zeros t)%nat.
Proof.
  intros Hp Hq Hne.
  pose proof (zeros_poke t p 1 Hp) as Hcount.
  pose proof (zeros_one (poke t p 1) q) as Hone.
  rewrite (cell_poke _ _ _ _ _ Hp) in Hone. case_decide; [done|].
  specialize (Hone Hq). lia.
Qed.

Lemma row_zeros_replicate w : row_zeros (replicate w 0) = w.
Proof. induction w as [|w IH]; simpl; [done|]. by rewrite IH. Qed.

Lemma zeros_blank w h : zeros (blank w h 0) = (h * w)%nat.
Proof.
  unfold blank. induction h as [|h IH]; simpl; [done|].
  by rewrite IH, row_zeros_replicate.
Qed.

(** On a board with cells, the blank table has them all to fill. *)
Lemma zeros_start sz st :
  0 < x sz → 0 < y sz →
  Z.of_nat (zeros (table (start_state sz st))) = x sz * y sz - 0.
Proof.
  intros Hx Hy. simpl. rewrite zeros_blank, Nat2Z.inj_mul, !Z2Nat.id by lia. lia.
Qed.

(** ** Loops *)

Lemma bind_Done {A B} (c : M A) (k : A → M B) st b s :
  bind c k st = Done (b, s) ↔ ∃ a st', c st = Done (a, st') ∧ k a st' = Done (b, s).
Proof.
  unfold bind. split.
  - destruct (c st) as [[a st']| |]; [|done..]. intros H. by exists a, st'.
  - intros (a & st' & -> & H). done.
Qed.

Section Loops.
Context {A : Type} (f : A → M bool).


(** A loop over a query that leaves the state alone. *)
Lemma until_query (g : A → bool) l st :
  (∀ a, f a st = Done (g a, st)) → until f l st = Done (existsb g l, st).
Proof.
  intros Hf. induction l as [|a l IH]; simpl; [done|].
  unfold bind. rewrite Hf. destruct (g a); simpl; [done|]. apply IH.
Qed.

(** A property that every round keeps holds when the loop ends. *)
Lemma until_invariant (P : State → Prop) l :
  (∀ a st r s, P st → f a st = Done (r, s) → P s) →
  ∀ st r s, P st → until f l st = Done (r, s) → P s.
Proof.
  intros Hf. induction l as [|a l IH]; intros st r s HP; simpl.
  - by intros [= <- <-].
  - intros H. apply bind_Done in H as (b & st' & Ha & H).
    pose proof (Hf _ _ _ _ HP Ha) as HP'. destruct b.
    + by injection H as <- <-.
    + by eapply IH.
Qed.

(** A loop whose rounds all answer, answers. *)
Lemma until_Done (P : State → Prop) l :
  (∀ a st, P st → ∃ r s, f a st = Done (r, s) ∧ P s) →
  ∀ st, P st → ∃ r s, until f l st = Done (r, s).
Proof.
  intros Hf. induction l as [|a l IH]; intros st HP; simpl.
  - by exists false, st.
  - destruct (Hf a st HP) as (r & s & Ha & HPs). unfold bind. rewrite Ha.
    destruct r; [by exists true, s|]. by apply IH.
Qed.

(** A loop whose rounds stay in the table, stays in the table. *)
Lemma until_in_range (P : State → Prop) l :
  (∀ a st, P st → f a st ≠ OutOfRange ∧ ∀ r s, f a st = Done (r, s) → P s) →
  ∀ st, P st → until f l st ≠ OutOfRange.
Proof.
  intros Hf. induction l as [|a l IH]; intros st HP; simpl; [done|].
  destruct (Hf a st HP) as [Hne Hpost]. unfold bind.
  destruct (f a st) as [[[] s]| |]; try done. apply IH. by eapply Hpost.
Qed.

Lemma restoring_tail t a l : restoring f t (a :: l) → restoring f t l.
Proof. intros Hf a' st s Hin. apply Hf. by right. Qed.

(** Such a loop ends with the table put back, or in the round that
    answered true, which started from that table. *)
Lemma until_keeps t l :
  restoring f t l →
  ∀ st r s, table st = t → until f l st = Done (r, s) →
  if r then ∃ a st1, a ∈ l ∧ table st1 = t ∧ f a st1 = Done (true, s)
  else table s = t.
Proof.
  induction l as [|a l IH]; intros Hf st r s Ht; simpl.
  - intros [= <- <-]. done.
  - intros H. apply bind_Done in H as (b & st' & Ha & H). destruct b.
    + injection H as <- <-. exists a, st. split; [left|done].
    + assert (Ht' : table st' = t) by (eapply Hf; [left|done..]).
      specialize (IH (restoring_tail _ _ _ Hf) st' r s Ht' H).
      destruct r; [|done].
      destruct IH as (a' & st1 & ? & ? & ?). exists a', st1.
      split; [by right|done].
Qed.

(** When it answers false, it ran every round from that table. *)
Lemma until_false_all t l :
  restoring f t l →
  ∀ st s, table st = t → until f l st = Done (false, s) →
  ∀ a, a ∈ l → ∃ st1 s1, table st1 = t ∧ f a st1 = Done (false, s1).
Proof.
  induction l as [|a l IH]; intros Hf st s Ht Hrun a' Hin.
  - by apply elem_of_nil in Hin.
  - simpl in Hrun. apply bind_Done in Hrun as (b & st' & Ha & Hrun).
    destruct b; [done|].
    apply elem_of_cons in Hin as [->|Hin]; [by exists st, st'|].
    apply (IH (restoring_tail _ _ _ Hf) st' s); [|done..].
    eapply Hf; [left|done..].
Qed.

Context (g : A → M bool).

(** Two loops whose rounds agree, from states with the same table. *)
Lemma until_pair (t : list (list Z)) l :
  (∀ a st st' r r' s s', a ∈ l → table st = t → table st' = t →
     f a st = Done (r, s) → g a st' = Done (r', s') →
     r = r' ∧ table s = table s' ∧ (r = false → table s = t)) →
  ∀ st st' r r' s s', table st = t → table st' = t →
    until f l st = Done (r, s) → until g l st' = Done (r', s') →
    r = r' ∧ table s = table s' ∧ (r = false → table s = t).
Proof.
  induction l as [|a l IH]; intros Hfg st st' r r' s s' Ht Ht'; simpl.
  - intros [= <- <-] [= <- <-]. split; [done|]. split; [congruence|done].
  - intros H H'. apply bind_Done in H as (b & st1 & Ha & H).
    apply bind_Done in H' as (b' & st1' & Ha' & H').
    destruct (Hfg a st st' b b' st1 st1') as (<- & Heq & Hback);
      [left|done..|].
    destruct b.
    + injection H as <- <-. injection H' as <- <-. done.
    + assert (Ht1 : table st1 = t) by by apply Hback.
      assert (Ht1' : table st1' = t) by congruence.
      apply (IH (λ a0 u u' b0 b0' v v' Hin,
                   Hfg a0 u u' b0 b0' v v' (list_elem_of_further _ _ _ Hin))
                st1 st1'); done.
Qed.

(** Two loops whose rounds run the same, round by round. *)
Lemma until_ext (P : State → Prop) l :
  (∀ a st, P st → f a st = g a st ∧ ∀ r s, f a st = Done (r, s) → P s) →
  ∀ st, P st → until f l st = until g l st.
Proof.
  intros Hfg. induction l as [|a l IH]; intros st HP; simpl; [done|].
  destruct (Hfg a st HP) as [Heq Hpost]. unfold bind. rewrite <- Heq.
  destruct (f a st) as [[[] s]| |]; try done. apply IH. by eapply Hpost.
Qed.

Lemma until_ext_Done l :
  (∀ a st r s, f a st = Done (r, s) → g a st = Done (r, s)) →
  ∀ st r s, until f l st = Done (r, s) → until g l st = Done (r, s).
Proof.
  intros Hfg. induction l as [|a l IH]; intros st r s; simpl; [done|].
  intros H. apply bind_Done in H as (b & st' & Ha & H).
  unfold bind. rewrite (Hfg _ _ _ _ Ha). destruct b; [done|]. by apply IH.
Qed.
End Loops.

(** ** The queries *)

Lemma is_available_run sz p st :
  shaped sz (table st) → is_available sz p st = Done (open sz (table st) p, st).
Proof.
  intros Hsh. unfold is_available, open, load, bind, ret.
  destruct ((x p <? 0) || (x p >=? x sz) || (y p <? 0) || (y p >=? y sz))
    eqn:Hout; simpl; [done|].
  destruct (cell_inside sz (table st) p Hsh) as [v Hv].
  { repeat (apply orb_false_iff in Hout as [Hout ?]). unfold inside. lia. }
  rewrite Hv. by destruct (v =? 0).
Qed.

Lemma is_blocked_run sz dl p st :
  shaped sz (table st) →
  is_blocked sz dl p st = Done (walled sz dl (table st) p, st).
Proof.
  intros Hsh. unfold is_blocked, bind.
  rewrite (until_query _ (λ d, open sz (table st) (shift p d)))
    by (intros d; by apply is_available_run).
  rewrite walled_existsb. by destruct (existsb _ dl).
Qed.

Lemma blocks_open_space_run sz dl p st :
  shaped sz (table st) →
  blocks_open_space sz dl p st = Done (orphans sz dl (table st) p, st).
Proof.
  intros Hsh. unfold blocks_open_space, orphans.
  apply until_query. intros d. unfold bind.
  rewrite is_available_run by done.
  destruct (open sz (table st) (shift p d)); simpl; [|done].
  by apply is_blocked_run.
Qed.

(** ** Filling the table with zeros *)

Lemma seqZ_step m (k : nat) :
  seqZ m (Z.of_nat (S k)) = m :: seqZ (m + 1) (Z.of_nat k).
Proof.
  rewrite seqZ_cons by lia. f_equal. f_equal; lia.
Qed.

Lemma seqZ_to_nat m n : seqZ m n = seqZ m (Z.of_nat (Z.to_nat n)).
Proof. unfold seqZ. by rewrite Nat2Z.id. Qed.

Lemma insert_alter_same {A} (g : A → A) (l : list A) i a :
  <[i:=a]> (alter g i l) = <[i:=a]> l.
Proof.
  apply list_eq. intros j. destruct (decide (i = j)) as [<-|Hne].
  - destruct (decide (i < length l)%nat) as [Hlt|Hge].
    + by rewrite !list_lookup_insert_eq by (rewrite ?length_alter; done).
    + rewrite !list_insert_ge by (rewrite ?length_alter; lia).
      rewrite !lookup_ge_None_2 by (rewrite ?length_alter; lia). done.
  - rewrite !list_lookup_insert_ne by done. by rewrite list_lookup_alter_ne.
Qed.

(** The inner loop, from column [j0] on, in row [i]. *)
Lemma fill_columns (k : nat) : ∀ (j0 i : Z) t it row,
  0 ≤ j0 → 0 ≤ i →
  t !! Z.to_nat i = Some row →
  length row = (Z.to_nat j0 + k)%nat →
  each (λ j, store (mkCoords j i) 0) (seqZ j0 (Z.of_nat k)) (mkState t it) =
  Done (tt, mkState (<[Z.to_nat i := take (Z.to_nat j0) row ++ replicate k 0]> t) it).
Proof.
  induction k as [|k IH]; intros j0 i t it row Hj Hi Hrow Hlen.
  - rewrite seqZ_nil by lia. simpl. unfold ret. do 3 f_equal.
    rewrite app_nil_r, take_ge by lia. symmetry. by apply list_insert_id.
  - rewrite seqZ_step. simpl. unfold bind at 1. unfold store at 1. simpl.
    destruct (lookup_lt_is_Some_2 row (Z.to_nat j0)) as [v Hv]; [lia|].
    assert (Hcell : cell t (mkCoords j0 i) = Some v).
    { unfold cell. rewrite nonneg_test by done. simpl. by rewrite Hrow. }
    rewrite Hcell.
    rewrite (IH (j0 + 1) i _ it (<[Z.to_nat j0 := 0]> row)); [|lia|lia| |].
    + do 3 f_equal. unfold poke. simpl.
      rewrite insert_alter_same. f_equal.
      replace (Z.to_nat (j0 + 1)) with (S (Z.to_nat j0)) by lia.
      rewrite (take_S_r _ _ 0)
        by (apply list_lookup_insert_eq; by eapply lookup_lt_Some).
      rewrite take_insert_ge by lia. by rewrite <- app_assoc.
    + unfold poke. simpl. by rewrite list_lookup_alter_eq, Hrow.
    + rewrite length_insert. lia.
Qed.

(** The outer loop, from row [i0] on. *)
Lemma fill_rows (w : Z) (k : nat) : ∀ (i0 : Z) t it,
  0 ≤ i0 →
  length t = (Z.to_nat i0 + k)%nat →
  Forall (λ row, length row = Z.to_nat w) t →
  each (λ i, each (λ j, store (mkCoords j i) 0) (seqZ 0 w))
       (seqZ i0 (Z.of_nat k)) (mkState t it) =
  Done (tt, mkState (take (Z.to_nat i0) t
                     ++ replicate k (replicate (Z.to_nat w) 0)) it).
Proof.
  induction k as [|k IH]; intros i0 t it Hi Hlen Hrows.
  - rewrite (seqZ_nil i0) by lia. simpl. unfold ret.
    rewrite app_nil_r. rewrite take_ge by lia. done.
  - rewrite seqZ_step. simpl. unfold bind at 1.
    destruct (lookup_lt_is_Some_2 t (Z.to_nat i0)) as [row Hrow]; [lia|].
    assert (Hw : length row = Z.to_nat w).
    { rewrite Forall_lookup in Hrows. exact (Hrows _ _ Hrow). }
    assert (Hcol : each (λ j, store (mkCoords j i0) 0) (seqZ 0 w) (mkState t it)
                   = Done (tt, mkState (<[Z.to_nat i0 := replicate (Z.to_nat w) 0]> t) it)).
    { rewrite (seqZ_to_nat 0 w).
      by rewrite (fill_columns (Z.to_nat w) 0 i0 t it row) by (done || lia). }
    rewrite Hcol. rewrite IH; [| lia | rewrite length_insert; lia |].
    + do 3 f_equal.
      replace (Z.to_nat (i0 + 1)) with (S (Z.to_nat i0)) by lia.
      rewrite (take_S_r _ _ (replicate (Z.to_nat w) 0))
        by (apply list_lookup_insert_eq; by eapply lookup_lt_Some).
      rewrite take_insert_ge by lia. by rewrite <- app_assoc.
    + apply Forall_insert; [done|]. by rewrite length_replicate.
Qed.

Lemma fill_zeros_run sz st :
  shaped sz (table st) →
  fill_zeros sz st =
  Done (tt, mkState (blank (Z.to_nat (x sz)) (Z.to_nat (y sz)) 0) (iter st)).
Proof.
  intros [Hlen Hrows]. unfold fill_zeros. destruct st as [t it]. simpl in *.
  rewrite (seqZ_to_nat 0 (y sz)).
  by rewrite (fill_rows (x sz) (Z.to_nat (y sz)) 0 t it) by (done || lia).
Qed.

(** What [path_find] does before the first call of [path_iter]. *)
Lemma path_find_start sz st :
  shaped sz (table st) →
  (fill_zeros sz;; clear_iter) st = Done (tt, start_state sz st).
Proof. intros Hsh. unfold bind. by rewrite fill_zeros_run. Qed.

Lemma path_find_run c sz dl pos st :
  shaped sz (table st) →
  path_find c sz dl pos st =
  path_iter c (S (Z.to_nat (x sz * y sz))) sz dl pos 0 (start_state sz st).
Proof.
  intros Hsh. unfold path_find, bind. by rewrite fill_zeros_run.
Qed.

(** ** One call of [path_iter] *)

(** On a table of the announced size the queries answer, and a call comes
    to this: success when the table is full; failure when the position is
    not open, or when marking it orphans a cell; else the loop over the
    moves from the marked table, and the mark taken back when it fails. *)
Lemma path_iter_step c fuel sz dl pos m st :
  shaped sz (table st) →
  path_iter c (S fuel) sz dl pos m st =
  if m >=? x sz * y sz then Done (true, counted st)
  else if negb (open sz (table st) pos) then Done (false, counted st)
  else if c && (m + 1 <? x sz * y sz - 1)
          && orphans sz dl (poke (table st) pos (m + 1)) pos
  then Done (false, counted st)
  else
    match until (λ d, path_iter c fuel sz dl (shift pos d) (m + 1)) dl
                (marked pos m st) with
    | Done (true, s) => Done (true, s)
    | Done (false, s) => unmark pos s
    | OutOfRange => OutOfRange
    | OutOfFuel => OutOfFuel
    end.
Proof.
  intros Hsh. simpl. unfold bind at 1. unfold count_iter at 1.
  destruct (m >=? x sz * y sz); [done|].
  unfold bind at 1. rewrite is_available_run by done. simpl.
  destruct (open sz (table st) pos) eqn:Hopen; simpl; [|done].
  destruct (open_inside Hopen) as [Hin Hc].
  unfold bind at 1. unfold store at 1. simpl. rewrite Hc.
  unfold bind at 1. fold (marked pos m st).
  assert (Hsh1 : shaped sz (table (marked pos m st))) by (simpl; auto with shape).
  assert (Hc1 : cell (table (marked pos m st)) pos = Some (m + 1))
    by by eapply cell_poke_eq.
  assert (Hlast : ∀ s, (store pos 0;; ret false) s = unmark pos s).
  { intros s. unfold bind, store, unmark, ret. by destruct (cell (table s) pos). }
  destruct (c && (m + 1 <? x sz * y sz - 1)) eqn:Hck; simpl.
  - rewrite blocks_open_space_run by done. simpl.
    destruct (orphans sz dl _ pos); simpl.
    + rewrite Hlast. unfold unmark. rewrite Hc1. simpl.
      unfold counted. by erewrite poke_undo.
    + unfold bind at 1. destruct (until _ dl _) as [[[] s]| |]; done.
  - unfold ret at 1. unfold bind at 1.
    destruct (until _ dl _) as [[[] s]| |]; done.
Qed.

(** Taking back the mark of a position that was open. *)
Lemma unmark_run t pos v s :
  table s = poke t pos v → cell t pos = Some 0 →
  unmark pos s = Done (false, mkState t (iter s)).
Proof.
  intros Hs Hc. unfold unmark. rewrite Hs.
  rewrite (cell_poke_eq _ _ 0) by done. by erewrite poke_undo.
Qed.

(** ** What a call leaves behind *)

(** A call that answers false has put the table back; one that answers
    true has only written into cells that held 0.  Either way the table
    keeps its shape. *)
Lemma path_iter_frame {c sz dl fuel} : ∀ {pos m st r s},
  shaped sz (table st) →
  path_iter c fuel sz dl pos m st = Done (r, s) →
  shaped sz (table s) ∧ (r = false → table s = table st)
  ∧ grows (table st) (table s).
Proof.
  induction fuel as [|fuel IH]; intros pos m st r s Hsh; [done|].
  rewrite path_iter_step by done.
  destruct (m >=? x sz * y sz).
  { intros [= <- <-]. simpl. auto using grows_refl. }
  destruct (open sz (table st) pos) eqn:Hopen; simpl;
    [|intros [= <- <-]; simpl; auto using grows_refl].
  destruct (open_inside Hopen) as [Hin Hc].
  destruct (c && (m + 1 <? x sz * y sz - 1) && orphans sz dl _ pos).
  { intros [= <- <-]. simpl. auto using grows_refl. }
  set (t1 := poke (table st) pos (m + 1)).
  assert (Hsh1 : shaped sz t1) by (unfold t1; auto with shape).
  destruct (until _ dl _) as [[r' s']| |] eqn:Hloop; [|by destruct r..].
  apply (until_keeps _ t1) in Hloop; [| |done].
  - destruct r'.
    + destruct Hloop as (d & st1 & _ & Ht1 & Hd). intros [= <- <-].
      rewrite <- Ht1 in Hsh1. destruct (IH _ _ _ _ _ Hsh1 Hd) as (? & _ & Hg).
      split; [done|]. split; [done|].
      eapply grows_trans; [by apply (grows_poke _ pos (m + 1))|].
      fold t1. by rewrite <- Ht1.
    + rewrite (unmark_run (table st) pos (m + 1)) by done.
      intros [= <- <-]. simpl. auto using grows_refl.
  - intros d st1 s1 _ Ht1 Hd. rewrite <- Ht1 in Hsh1.
    destruct (IH _ _ _ _ _ Hsh1 Hd) as (_ & Heq & _). rewrite Heq; done.
Qed.

Lemma path_iter_shaped {c sz dl fuel pos m st r s} :
  shaped sz (table st) →
  path_iter c fuel sz dl pos m st = Done (r, s) → shaped sz (table s).
Proof. intros Hsh H. by destruct (path_iter_frame Hsh H). Qed.

Lemma path_iter_restores {c sz dl fuel pos m st s} :
  shaped sz (table st) →
  path_iter c fuel sz dl pos m st = Done (false, s) → table s = table st.
Proof.
  intros Hsh H. destruct (path_iter_frame Hsh H) as (_ & Heq & _). by apply Heq.
Qed.

(** The rounds of the loop of a call, each a call of its own, put the table
    back when they answer false. *)
Lemma rounds_restore c sz (dl l : list Coords) fuel pos m t :
  shaped sz t →
  restoring (λ d, path_iter c fuel sz dl (shift pos d) m) t l.
Proof.
  intros Hsh d st s _ Ht Hd. rewrite <- Ht in Hsh.
  by rewrite (path_iter_restores Hsh Hd).
Qed.

(** A call leaves a counter where there was one, and none where there was
    none. *)
Lemma path_iter_counter {c sz dl fuel} : ∀ {pos m st r s},
  shaped sz (table st) →
  path_iter c fuel sz dl pos m st = Done (r, s) →
  zeroed (iter s) = zeroed (iter st).
Proof.
  induction fuel as [|fuel IH]; intros pos m st r s Hsh; [done|].
  rewrite path_iter_step by done.
  assert (Hcount : zeroed (Z.succ <$> iter st) = zeroed (iter st))
    by by destruct (iter st).
  destruct (m >=? x sz * y sz); [by intros [= <- <-]|].
  destruct (open sz (table st) pos) eqn:Hopen; simpl; [|by intros [= <- <-]].
  destruct (c && (m + 1 <? x sz * y sz - 1) && orphans sz dl _ pos);
    [by intros [= <- <-]|].
  destruct (until _ dl _) as [[r' s']| |] eqn:Hloop; [|by destruct r..].
  apply (until_invariant _
           (λ st', shaped sz (table st') ∧ zeroed (iter st') = zeroed (iter st)))
    in Hloop.
  - destruct Hloop as [_ Hit]. destruct r'; [by intros [= <- <-]|].
    unfold unmark. destruct (cell (table s') pos); [|done].
    by intros [= <- <-].
  - intros d st1 r1 s1 [Hsh1 Hit1] Hd. split; [by eapply path_iter_shaped|].
    rewrite <- Hit1. by eapply IH.
  - split; [simpl; auto with shape|done].
Qed.

(** ** Fuel *)

(** [path_iter] needs one unit of fuel for itself and one more for every
    cell still to fill. *)
Lemma path_iter_Done c sz dl fuel : ∀ pos m st,
  shaped sz (table st) →
  (Z.to_nat (x sz * y sz - m) < fuel)%nat →
  ∃ r s, path_iter c fuel sz dl pos m st = Done (r, s).
Proof.
  induction fuel as [|fuel IH]; intros pos m st Hsh Hfuel; [lia|].
  rewrite path_iter_step by done.
  destruct (geb_cases m (x sz * y sz)) as [[Hfull ->]|[Hfull ->]]; [by eauto|].
  destruct (open sz (table st) pos) eqn:Hopen; simpl; [|by eauto].
  destruct (open_inside Hopen) as [Hin Hc].
  destruct (c && (m + 1 <? x sz * y sz - 1) && orphans sz dl _ pos);
    [by eauto|].
  set (t1 := poke (table st) pos (m + 1)).
  assert (Hsh1 : shaped sz t1) by (unfold t1; auto with shape).
  destruct (until_Done (λ d, path_iter c fuel sz dl (shift pos d) (m + 1))
              (λ st', shaped sz (table st')) dl) with (st := marked pos m st)
    as (r & s & Hloop); [|done|].
  - intros d st' Hsh'. destruct (IH (shift pos d) (m + 1) st' Hsh')
      as (r & s & Hrun); [lia|].
    exists r, s. split; [done|]. by eapply path_iter_shaped.
  - rewrite Hloop. destruct r; [by eauto|].
    apply (until_keeps _ t1) in Hloop; [|by apply rounds_restore|done].
    rewrite (unmark_run (table st) pos (m + 1)) by done. by eauto.
Qed.

(** More fuel does not change the outcome of a call that had enough. *)
Lemma path_iter_more_fuel c sz dl fuel : ∀ fuel' pos m st r s,
  (fuel ≤ fuel')%nat →
  path_iter c fuel sz dl pos m st = Done (r, s) →
  path_iter c fuel' sz dl pos m st = Done (r, s).
Proof.
  induction fuel as [|fuel IH]; intros fuel' pos m st r s Hle; [done|].
  destruct fuel' as [|fuel']; [lia|]. simpl.
  intros H. apply bind_Done in H as (u & st0 & Hcount & H).
  apply bind_Done. exists u, st0. split; [done|].
  destruct (m >=? x sz * y sz); [done|].
  apply bind_Done in H as (a & st1 & Ha & H).
  apply bind_Done. exists a, st1. split; [done|].
  destruct (negb a); [done|].
  apply bind_Done in H as (u2 & st2 & Hst & H).
  apply bind_Done. exists u2, st2. split; [done|].
  apply bind_Done in H as (boxed & st3 & Hb & H).
  apply bind_Done. exists boxed, st3. split; [done|].
  destruct boxed; [done|].
  apply bind_Done in H as (found & st4 & Hloop & H).
  apply bind_Done. exists found, st4. split; [|done].
  revert Hloop. apply until_ext_Done. intros d st' r' s'. apply IH. lia.
Qed.

(** A call never leaves the table: with any amount of fuel it does not
    stop with [OutOfRange]. *)
Lemma path_iter_in_range c sz dl fuel : ∀ pos m st,
  shaped sz (table st) → path_iter c fuel sz dl pos m st ≠ OutOfRange.
Proof.
  induction fuel as [|fuel IH]; intros pos m st Hsh; [done|].
  rewrite path_iter_step by done.
  destruct (m >=? x sz * y sz); [done|].
  destruct (open sz (table st) pos) eqn:Hopen; simpl; [|done].
  destruct (open_inside Hopen) as [Hin Hc].
  destruct (c && (m + 1 <? x sz * y sz - 1) && orphans sz dl _ pos); [done|].
  set (t1 := poke (table st) pos (m + 1)).
  assert (Hsh1 : shaped sz t1) by (unfold t1; auto with shape).
  destruct (until _ dl _) as [[[] s]| |] eqn:Hloop; try done.
  - apply (until_keeps _ t1) in Hloop; [|by apply rounds_restore|done].
    by rewrite (unmark_run (table st) pos (m + 1)).
  - exfalso. revert Hloop.
    apply (until_in_range _ (λ st', shaped sz (table st'))); [|done].
    intros d st' Hsh'. split; [by apply IH|].
    intros r s. by apply path_iter_shaped.
Qed.

Lemma path_find_Done c sz dl pos st :
  shaped sz (table st) → ∃ r s, path_find c sz dl pos st = Done (r, s).
Proof.
  intros Hsh. rewrite path_find_run by done.
  apply path_iter_Done; [auto with shape|lia].
Qed.

(** ** The look-ahead *)


(** With two or more cells to fill and an empty cell [n] from which no move
    leads to an empty cell, no call finds a path: [n] can only be the last
    cell of a path, and as the moves are symmetric it can only be entered
    from a cell it could move to. *)
Lemma doomed c sz dl (Hsym : symmetric dl) n fuel : ∀ pos m st r s,
  shaped sz (table st) →
  Z.of_nat (zeros (table st)) = x sz * y sz - m →
  0 ≤ m < x sz * y sz - 1 →
  open sz (table st) n = true →
  walled sz dl (table st) n = true →
  path_iter c fuel sz dl pos m st = Done (r, s) →
  r = false.
Proof.
  induction fuel as [|fuel IH]; intros pos m st r s Hsh Hcount Hm Hn Hwall;
    [done|].
  rewrite path_iter_step by done.
  rewrite (geb_false m) by lia.
  destruct (open sz (table st) pos) eqn:Hopen; simpl; [|by intros [= <- _]].
  destruct (open_inside Hopen) as [Hin Hc].
  destruct (open_inside Hn) as [Hnin Hnc].
  destruct (c && (m + 1 <? x sz * y sz - 1) && orphans sz dl _ pos);
    [by intros [= <- _]|].
  set (t1 := poke (table st) pos (m + 1)).
  assert (Hsh1 : shaped sz t1) by (unfold t1; auto with shape).
  assert (Hm1 : m + 1 ≠ 0) by lia.
  assert (Hcount1 : Z.of_nat (zeros t1) = x sz * y sz - (m + 1)).
  { pose proof (zeros_poke (table st) pos (m + 1) Hc Hm1) as Hz.
    fold t1 in Hz. lia. }
  destruct (until _ dl _) as [[r' s']| |] eqn:Hloop; [|by destruct r..].
  apply (until_keeps _ t1) in Hloop; [|by apply rounds_restore|done].
  destruct r'; [exfalso|].
  2: { rewrite (unmark_run (table st) pos (m + 1)) by done. by intros [= <- _]. }
  destruct Hloop as (d & st1 & Hd & Ht1 & Hrun).
  rewrite <- Ht1 in Hsh1, Hcount1.
  destruct (decide (pos = n)) as [->|Hne].
  - (* the candidate was [n] itself: no way on from there *)
    destruct fuel as [|fuel]; [done|].
    rewrite path_iter_step in Hrun by done.
    rewrite (geb_false (m + 1)) in Hrun by lia.
    rewrite Ht1 in Hrun. unfold t1 in Hrun.
    rewrite (open_poke_false sz (table st) n (shift n d) (m + 1)) in Hrun
      by (done || by eapply walled_not_open).
    done.
  - assert (Hn1 : open sz (table st1) n = true)
      by (rewrite Ht1; unfold t1; by rewrite open_poke_other).
    assert (Hwall1 : walled sz dl (table st1) n = true)
      by (rewrite Ht1; by apply walled_poke).
    destruct (decide (m + 1 < x sz * y sz - 1)) as [Hroom|Hlast].
    { assert (Hroom' : 0 ≤ m + 1 < x sz * y sz - 1) by lia.
      by pose proof (IH _ _ _ _ _ Hsh1 Hcount1 Hroom' Hn1 Hwall1 Hrun). }
    (* [n] is the only cell left, and [pos] does not lead to it *)
    destruct fuel as [|fuel]; [done|].
    rewrite path_iter_step in Hrun by done.
    rewrite (geb_false (m + 1)) in Hrun by lia.
    destruct (open sz (table st1) (shift pos d)) eqn:Hq; [|done].
    destruct (open_inside Hq) as [_ Hqc].
    destruct (open_inside Hn1) as [_ Hn1c].
    destruct (decide (shift pos d = n)) as [Heq|Hneq].
    + pose proof (walled_not_open _ Hwall (Hsym d Hd)) as Hback.
      replace (shift n (mkCoords (- x d) (- y d))) with pos in Hback
        by (rewrite <- Heq; apply Coords_eq; simpl; lia).
      congruence.
    + pose proof (zeros_two _ _ _ Hqc Hn1c Hneq). lia.
Qed.

(** From a position reached by the search, the build with the check and the
    build without it give the same answer and leave the same table. *)
Lemma check_agrees sz dl (Hsym : symmetric dl) fuel : ∀ pos m t i i' r r' s s',
  shaped sz t →
  Z.of_nat (zeros t) = x sz * y sz - m →
  0 ≤ m →
  path_iter true fuel sz dl pos m (mkState t i) = Done (r, s) →
  path_iter false fuel sz dl pos m (mkState t i') = Done (r', s') →
  r = r' ∧ table s = table s'.
Proof.
  induction fuel as [|fuel IH]; intros pos m t i i' r r' s s' Hsh Hcount Hm;
    [done|].
  rewrite !path_iter_step by done. simpl.
  destruct (geb_cases m (x sz * y sz)) as [[Hfull ->]|[Hfull ->]].
  { by intros [= <- <-] [= <- <-]. }
  destruct (open sz t pos) eqn:Hopen; simpl;
    [|by intros [= <- <-] [= <- <-]].
  destruct (open_inside Hopen) as [Hin Hc].
  unfold marked. simpl.
  set (t1 := poke t pos (m + 1)).
  assert (Hsh1 : shaped sz t1) by (unfold t1; auto with shape).
  assert (Hm1 : m + 1 ≠ 0) by lia.
  assert (Hcount1 : Z.of_nat (zeros t1) = x sz * y sz - (m + 1)).
  { pose proof (zeros_poke t pos (m + 1) Hc Hm1) as Hz. fold t1 in Hz. lia. }
  assert (Hpair : ∀ d st st' ra rb sa sb, d ∈ dl → table st = t1 → table st' = t1 →
            path_iter true fuel sz dl (shift pos d) (m + 1) st = Done (ra, sa) →
            path_iter false fuel sz dl (shift pos d) (m + 1) st' = Done (rb, sb) →
            ra = rb ∧ table sa = table sb ∧ (ra = false → table sa = t1)).
  { intros d [ta ia] [tb ib] ra rb sa sb Hd Hta Htb Hra Hrb.
    simpl in Hta, Htb. subst ta tb.
    destruct (IH _ _ _ _ _ _ _ _ _ Hsh1 Hcount1 ltac:(lia) Hra Hrb)
      as [<- Hab].
    split; [done|]. split; [done|]. intros ->.
    by apply (rounds_restore true sz dl dl fuel pos (m + 1) t1 Hsh1 d
                (mkState t1 ia) sa). }
  destruct ((m + 1 <? x sz * y sz - 1) && orphans sz dl t1 pos) eqn:Hck.
  - (* the check rejects the candidate: the other build fails as well *)
    apply andb_true_iff in Hck as [Hroom Horph]. apply Z.ltb_lt in Hroom.
    intros [= <- <-].
    destruct (until _ dl _) as [[r2 s2]| |] eqn:Hloop; [|done..].
    apply (until_keeps _ t1) in Hloop; [|by apply rounds_restore|done].
    destruct r2.
    + exfalso. destruct Hloop as (d & st1 & _ & Ht1 & Hrun).
      destruct (orphans_witness Horph) as (n & Hn & Hwall).
      rewrite <- Ht1 in Hsh1, Hcount1, Hn, Hwall.
      assert (Hroom' : 0 ≤ m + 1 < x sz * y sz - 1) by lia.
      by pose proof (doomed false sz dl Hsym n fuel _ _ _ _ _
                       Hsh1 Hcount1 Hroom' Hn Hwall Hrun).
    + rewrite (unmark_run t pos (m + 1)) by done. by intros [= <- <-].
  - (* the check lets the candidate through: the loops agree round by round *)
    destruct (until (λ d, path_iter true _ _ _ _ _) dl _)
      as [[r1 s1]| |] eqn:Hloop; [|by destruct r..].
    destruct (until (λ d, path_iter false _ _ _ _ _) dl _)
      as [[r2 s2]| |] eqn:Hloop'; [|by destruct r'..].
    destruct (until_pair _ _ t1 dl Hpair (mkState t1 (Z.succ <$> i))
                (mkState t1 (Z.succ <$> i')) _ _ _ _ eq_refl eq_refl Hloop Hloop')
      as (<- & Heq & Hkeep).
    destruct r1; [by intros [= <- <-] [= <- <-]|].
    specialize (Hkeep eq_refl). rewrite Hkeep in Heq.
    rewrite (unmark_run t pos (m + 1) s1), (unmark_run t pos (m + 1) s2)
      by done.
    by intros [= <- <-] [= <- <-].
Qed.

(** ** The order of the moves *)

(** Two move tables with the same moves, in whatever order, give the same
    answer from the same table. *)
Lemma same_moves_same_answer c sz dl dl' (Hsame : ∀ d, d ∈ dl ↔ d ∈ dl') fuel :
  ∀ pos m t i i' r r' s s',
  shaped sz t →
  path_iter c fuel sz dl pos m (mkState t i) = Done (r, s) →
  path_iter c fuel sz dl' pos m (mkState t i') = Done (r', s') →
  r = r'.
Proof.
  induction fuel as [|fuel IH]; intros pos m t i i' r r' s s' Hsh; [done|].
  rewrite !path_iter_step by done. simpl.
  destruct (m >=? x sz * y sz); [by intros [= <- _] [= <- _]|].
  destruct (open sz t pos) eqn:Hopen; simpl; [|by intros [= <- _] [= <- _]].
  destruct (open_inside Hopen) as [Hin Hc].
  rewrite <- (orphans_same sz dl dl') by done.
  destruct (c && (m + 1 <? x sz * y sz - 1) && orphans sz dl _ pos);
    [by intros [= <- _] [= <- _]|].
  unfold marked. simpl.
  set (t1 := poke t pos (m + 1)).
  assert (Hsh1 : shaped sz t1) by (unfold t1; auto with shape).
  pose proof (rounds_restore c sz dl dl fuel pos (m + 1) t1 Hsh1) as Hback.
  pose proof (rounds_restore c sz dl' dl' fuel pos (m + 1) t1 Hsh1) as Hback'.
  destruct (until _ dl _) as [[r1 s1]| |] eqn:Hloop; [|by destruct r..].
  destruct (until _ dl' _) as [[r2 s2]| |] eqn:Hloop'; [|by destruct r'..].
  assert (r1 = r2) as <-.
  { destruct r1, r2; try done.
    - apply (until_keeps _ t1) in Hloop; [|done..].
      destruct Hloop as (d & [ta ia] & Hd & Hta & Hrun). simpl in Hta. subst ta.
      destruct (until_false_all _ t1 dl' Hback'
                  (mkState t1 (Z.succ <$> i')) _ eq_refl Hloop' d)
        as ([tb ib] & sb & Htb & Hrun'); [by apply Hsame|].
      simpl in Htb. subst tb. by eapply IH.
    - apply (until_keeps _ t1) in Hloop'; [|done..].
      destruct Hloop' as (d & [tb ib] & Hd & Htb & Hrun'). simpl in Htb. subst tb.
      destruct (until_false_all _ t1 dl Hback
                  (mkState t1 (Z.succ <$> i)) _ eq_refl Hloop d)
        as ([ta ia] & sa & Hta & Hrun); [by apply Hsame|].
      simpl in Hta. subst ta. by eapply IH. }
  destruct r1; [by intros [= <- _] [= <- _]|].
  unfold unmark. destruct (cell (table s1) pos), (cell (table s2) pos); try done.
  by intros [= <- _] [= <- _].
Qed.

(** ** The marked cells form a path *)

Lemma simple_path_blank dl w h : simple_path dl (blank w h 0) 0.
Proof.
  split; [done|]. split; [|split; [|split]].
  - intros k Hk. lia.
  - intros p q k Hk Hp. apply cell_blank in Hp. done.
  - intros p v Hp. apply cell_blank in Hp. lia.
  - intros p q k Hk Hp. apply cell_blank in Hp. lia.
Qed.

(** Marking the next cell extends the path. *)
Lemma simple_path_mark dl t m pos :
  simple_path dl t m → cell t pos = Some 0 → joins dl t m pos →
  simple_path dl (poke t pos (m + 1)) (m + 1).
Proof.
  intros (Hm & Hall & Hone & Hval & Hlink) Hc Hjoin.
  split; [lia|]. split; [|split; [|split]].
  - intros k Hk. destruct (decide (k = m + 1)) as [->|Hne].
    + exists pos. by eapply cell_poke_eq.
    + destruct (Hall k) as [p Hp]; [lia|]. exists p.
      rewrite (cell_poke _ _ _ _ _ Hc). case_decide; [|done]. subst p.
      rewrite Hc in Hp. injection Hp as Hp. lia.
  - intros p q k Hk. rewrite !(cell_poke _ _ _ _ _ Hc).
    repeat case_decide; subst; intros Hp Hq; try done.
    + injection Hp as <-. apply Hval in Hq. lia.
    + injection Hq as <-. apply Hval in Hp. lia.
    + by eapply Hone.
  - intros p v. rewrite (cell_poke _ _ _ _ _ Hc). case_decide.
    + intros [= <-]. lia.
    + intros Hp. apply Hval in Hp. lia.
  - intros p q k Hk. rewrite !(cell_poke _ _ _ _ _ Hc).
    repeat case_decide; subst; intros Hp Hq.
    + injection Hp as <-. injection Hq as Hq. lia.
    + injection Hp as <-. apply Hval in Hq. lia.
    + injection Hq as Hq. assert (k = m) as -> by lia. apply Hjoin; [lia|done].
    + by eapply Hlink.
Qed.

(** Taking the last mark back shortens the path. *)
Lemma simple_path_unmark dl t m pos :
  0 ≤ m → simple_path dl t (m + 1) → cell t pos = Some (m + 1) →
  simple_path dl (poke t pos 0) m.
Proof.
  intros Hm (_ & Hall & Hone & Hval & Hlink) Hc.
  split; [done|]. split; [|split; [|split]].
  - intros k Hk. destruct (Hall k) as [p Hp]; [lia|]. exists p.
    rewrite (cell_poke _ _ _ _ _ Hc). case_decide; [|done].
    subst p. rewrite Hc in Hp. injection Hp as Hp. lia.
  - intros p q k Hk. rewrite !(cell_poke _ _ _ _ _ Hc).
    repeat case_decide; subst; intros Hp Hq; try congruence.
    by eapply Hone.
  - intros p v. rewrite (cell_poke _ _ _ _ _ Hc). case_decide as Hpos.
    + intros [= <-]. lia.
    + intros Hp. pose proof (Hval _ _ Hp) as Hv.
      destruct (decide (v = m + 1)) as [->|Hne]; [|lia].
      destruct Hpos. eapply (Hone pos p (m + 1)); [lia|done..].
  - intros p q k Hk. rewrite !(cell_poke _ _ _ _ _ Hc).
    repeat case_decide; subst; intros Hp Hq; try (injection Hp as Hp; lia);
      try (injection Hq as Hq; lia).
    by eapply Hlink.
Qed.

(** Once [pos] holds the last number of the path, every move of the table
    from [pos] continues the path. *)
Lemma joins_after_mark dl t m pos d :
  simple_path dl t m → 1 ≤ m → cell t pos = Some m → d ∈ dl →
  joins dl t m (shift pos d).
Proof.
  intros (_ & _ & Hone & _) Hm Hc Hd p _ Hp. exists d. split; [done|].
  assert (pos = p) as -> by (apply (Hone pos p m); [lia|done..]). done.
Qed.

(** A call entered with a path of [m] cells, at a position that continues
    it, leaves a path: the same one when it answers false, one that fills the
    table when it answers true. *)
Lemma path_iter_path c sz dl fuel : ∀ pos m st r s,
  shaped sz (table st) →
  simple_path dl (table st) m →
  joins dl (table st) m pos →
  path_iter c fuel sz dl pos m st = Done (r, s) →
  simple_path dl (table s) (if r then Z.max m (x sz * y sz) else m)
  ∧ (r = true → m < x sz * y sz → cell (table s) pos = Some (m + 1)).
Proof.
  induction fuel as [|fuel IH]; intros pos m st r s Hsh Hpath Hjoin; [done|].
  pose proof Hpath as [Hm _].
  rewrite path_iter_step by done.
  destruct (geb_cases m (x sz * y sz)) as [[Hfull ->]|[Hfull ->]].
  { intros [= <- <-]. simpl. rewrite Z.max_l by lia. split; [done|lia]. }
  destruct (open sz (table st) pos) eqn:Hopen; simpl;
    [|by intros [= <- <-]].
  destruct (open_inside Hopen) as [Hin Hc].
  destruct (c && (m + 1 <? x sz * y sz - 1) && orphans sz dl _ pos);
    [by intros [= <- <-]|].
  set (t1 := poke (table st) pos (m + 1)).
  assert (Hsh1 : shaped sz t1) by (unfold t1; auto with shape).
  assert (Hpath1 : simple_path dl t1 (m + 1)) by by apply simple_path_mark.
  assert (Hc1 : cell t1 pos = Some (m + 1)) by by eapply cell_poke_eq.
  destruct (until _ dl _) as [[r' s']| |] eqn:Hloop; [|by destruct r..].
  apply (until_keeps _ t1) in Hloop; [|by apply rounds_restore|done].
  destruct r'.
  - destruct Hloop as (d & st1 & Hd & Ht1 & Hrun). intros [= <- <-].
    rewrite <- Ht1 in Hsh1, Hpath1, Hc1.
    assert (Hjoin1 : joins dl (table st1) (m + 1) (shift pos d))
      by (apply joins_after_mark; [done|lia|done..]).
    destruct (IH _ _ _ _ _ Hsh1 Hpath1 Hjoin1 Hrun) as [Hfinal _].
    split.
    + by rewrite Z.max_r in * by lia.
    + intros _ _. destruct (path_iter_frame Hsh1 Hrun) as (_ & _ & Hg).
      apply Hg; [done|lia].
  - rewrite (unmark_run (table st) pos (m + 1)) by done.
    by intros [= <- <-].
Qed.

(** A call that answers true leaves no cell to fill. *)
Lemma path_iter_fills c sz dl fuel : ∀ pos m st s,
  shaped sz (table st) →
  Z.of_nat (zeros (table st)) = x sz * y sz - m →
  0 ≤ m < x sz * y sz →
  path_iter c fuel sz dl pos m st = Done (true, s) →
  zeros (table s) = 0%nat.
Proof.
  induction fuel as [|fuel IH]; intros pos m st s Hsh Hcount Hm; [done|].
  rewrite path_iter_step by done.
  rewrite (geb_false m) by lia.
  destruct (open sz (table st) pos) eqn:Hopen; simpl; [|done].
  destruct (open_inside Hopen) as [Hin Hc].
  destruct (c && (m + 1 <? x sz * y sz - 1) && orphans sz dl _ pos); [done|].
  set (t1 := poke (table st) pos (m + 1)).
  assert (Hsh1 : shaped sz t1) by (unfold t1; auto with shape).
  assert (Hcount1 : Z.of_nat (zeros t1) = x sz * y sz - (m + 1)).
  { pose proof (zeros_poke (table st) pos (m + 1) Hc ltac:(lia)) as Hz.
    fold t1 in Hz. lia. }
  destruct (until _ dl _) as [[r' s']| |] eqn:Hloop; [|done..].
  apply (until_keeps _ t1) in Hloop; [|by apply rounds_restore|done].
  destruct r'; [|unfold unmark; by destruct (cell (table s') pos)].
  destruct Hloop as (d & st1 & Hd & Ht1 & Hrun). intros [= <-].
  rewrite <- Ht1 in Hsh1, Hcount1.
  destruct (decide (m + 1 < x sz * y sz)) as [Hroom|Hlast].
  - eapply IH; [done|done| |done]. lia.
  - destruct fuel as [|fuel]; [done|].
    rewrite path_iter_step in Hrun by done.
    rewrite (geb_true (m + 1)) in Hrun by lia.
    injection Hrun as <-. simpl. lia.
Qed.

(** ** Every call of the search *)

(** At every call the table has the announced shape, the marked cells form
    a path, and the position of the call continues it. *)
Lemma enters_path c sz dl start st0 fuel st pos m :
  shaped sz (table st0) →
  enters c sz dl start st0 fuel st pos m →
  shaped sz (table st) ∧ simple_path dl (table st) m ∧ joins dl (table st) m pos.
Proof.
  intros Hsh0.
  induction 1 as [st Hstart|fuel st pos m l1 d l2 st1 _ (Hsh & Hpath & Hjoin)
                    Hfull Havail _ Hdl Hloop].
  - rewrite path_find_start in Hstart by done. injection Hstart as <-.
    split; [auto with shape|]. split; [apply simple_path_blank|].
    intros p ?. lia.
  - rewrite is_available_run in Havail by done. injection Havail as Hopen.
    destruct (open_inside Hopen) as [_ Hc]. simpl in Hc.
    pose proof Hpath as [Hm _].
    set (t1 := poke (table st) pos (m + 1)) in *.
    assert (Hsh1 : shaped sz t1) by (unfold t1; auto with shape).
    apply (until_keeps _ t1) in Hloop; [|by apply rounds_restore|done].
    rewrite Hloop. split; [done|].
    assert (Hpath1 : simple_path dl t1 (m + 1)) by by apply simple_path_mark.
    split; [done|]. apply joins_after_mark; [done|lia| |].
    + by eapply cell_poke_eq.
    + rewrite Hdl. apply elem_of_app. right. left.
Qed.

(** * Part 4.  The claims *)

(** ** C1: the search with and without the look-ahead *)


(** The knight's moves come in opposite pairs. *)
Lemma symmetric_delta : symmetric delta.
Proof.
  intros d Hd. apply list_elem_of_In in Hd. apply list_elem_of_In.
  simpl in Hd. repeat (destruct Hd as [<-|Hd]; [simpl; tauto|]). done.
Qed.



(** On the 5x5 board both builds find the same tour; the check saves most
    of the calls. *)
Example same_tour_5x5 :
  path_find true (mkCoords 5 5) delta (mkCoords 0 0)
    (mkState (blank 5 5 0) (Some 0)) = Done (true, mkState tour_5x5 (Some 11766))
  ∧ path_find false (mkCoords 5 5) delta (mkCoords 0 0)
      (mkState (blank 5 5 0) (Some 0)) = Done (true, mkState tour_5x5 (Some 565638)).
Proof. split; vm_compute; reflexivity. Qed.

(** ** C2: what a success leaves in the table *)

(** C2, as stated, fails: on the board without cells [path_find] answers
    success, and there is no start cell to hold 1. *)
Lemma success_without_cells :
  path_find true (mkCoords 0 0) delta (mkCoords 0 0) (mkState [] (Some 0))
  = Done (true, mkState [] (Some 1))
  ∧ cell (table (mkState [] (Some 1))) (mkCoords 0 0) ≠ Some 1.
Proof. split; [reflexivity|discriminate]. Qed.

(** C2, amended.  On a table of the announced size with at least one cell
    and a number of cells that an [int] holds ([1 <= width*height <=
    INT_MAX], so that the product the code computes does not overflow), when
    [path_find] answers success: each number 1..[width*height] is held by
    exactly one cell, the start cell holds 1, the cell holding [k+1] is the
    cell holding [k] plus one move of the table, and every cell of the
    board holds one of these numbers. *)
Theorem path_found_is_tour c sz dl pos st s :
  shaped sz (table st) →
  1 ≤ x sz * y sz ≤ INT_MAX →
  path_find c sz dl pos st = Done (true, s) →
  (∀ k, 1 ≤ k ≤ x sz * y sz →
        ∃ p, cell (table s) p = Some k ∧ ∀ q, cell (table s) q = Some k → q = p)
  ∧ cell (table s) pos = Some 1
  ∧ (∀ p q k, 1 ≤ k < x sz * y sz →
              cell (table s) p = Some k → cell (table s) q = Some (k + 1) →
              ∃ d, d ∈ dl ∧ q = mkCoords (x p + x d) (y p + y d))
  ∧ (∀ p, inside sz p → ∃ k, 1 ≤ k ≤ x sz * y sz ∧ cell (table s) p = Some k).
Proof.
  intros Hsh [Hcells _] Hrun. rewrite path_find_run in Hrun by done.
  pose proof (shaped_start sz st) as Hsh0.
  destruct (path_iter_path _ _ _ _ _ _ _ _ _ Hsh0
              (simple_path_blank dl _ _) ltac:(intros p ?; lia) Hrun)
    as [(_ & Hall & Hone & Hval & Hlink) Hstart].
  rewrite Z.max_r in * by lia.
  assert (Hopen : open sz (table (start_state sz st)) pos = true).
  { rewrite path_iter_step in Hrun by done.
    rewrite (geb_false 0) in Hrun by lia.
    by destruct (open sz (table (start_state sz st)) pos). }
  destruct (open_inside Hopen) as [[Hx Hy] _].
  assert (Hfull : zeros (table s) = 0%nat).
  { eapply (path_iter_fills _ _ _ _ _ 0); [exact Hsh0| |lia|exact Hrun].
    apply zeros_start; lia. }
  split; [|split; [|split]].
  - intros k Hk. destruct (Hall k Hk) as [p Hp]. exists p. split; [done|].
    intros q Hq. eapply Hone; [|done..]. lia.
  - apply Hstart; [done|lia].
  - intros p q k Hk. apply Hlink. lia.
  - intros p Hp.
    destruct (cell_inside sz (table s) p) as [v Hv]; [|done|].
    { by eapply path_iter_shaped. }
    exists v. split; [|done]. pose proof (Hval _ _ Hv).
    destruct (decide (v = 0)) as [->|Hne]; [|lia].
    pose proof (zeros_one _ _ Hv). lia.
Qed.

Lemma path_found_is_tour_witness :
  (∀ k, 1 ≤ k ≤ 5 * 5 →
        ∃ p, cell tour_5x5 p = Some k ∧ ∀ q, cell tour_5x5 q = Some k → q = p)
  ∧ cell tour_5x5 (mkCoords 0 0) = Some 1
  ∧ (∀ p q k, 1 ≤ k < 5 * 5 →
              cell tour_5x5 p = Some k → cell tour_5x5 q = Some (k + 1) →
              ∃ d, d ∈ delta ∧ q = mkCoords (x p + x d) (y p + y d))
  ∧ (∀ p, inside (mkCoords 5 5) p → ∃ k, 1 ≤ k ≤ 5 * 5 ∧ cell tour_5x5 p = Some k).
Proof.
  apply (path_found_is_tour true (mkCoords 5 5) delta (mkCoords 0 0)
           (mkState (blank 5 5 0) (Some 0)) (mkState tour_5x5 (Some 11766))).
  - split; [reflexivity|repeat constructor].
  - vm_compute. split; discriminate.
  - vm_compute. reflexivity.
Defined.

(** ** C3: what a failure leaves in the table *)

(** C3.  On a table of the announced size, a [path_find] that answers
    failure leaves every cell at zero, and a [path_iter] that answers
    failure, on the pruning exit as on any other, leaves the table as it
    was when the call was entered. *)
Theorem failure_restores_table c sz dl pos st :
  shaped sz (table st) →
  (∀ s, path_find c sz dl pos st = Done (false, s) →
        table s = blank (Z.to_nat (x sz)) (Z.to_nat (y sz)) 0
        ∧ ∀ q v, cell (table s) q = Some v → v = 0)
  ∧ (∀ fuel m s, path_iter c fuel sz dl pos m st = Done (false, s) →
                 table s = table st).
Proof.
  intros Hsh. split.
  - intros s. rewrite path_find_run by done. intros H.
    apply path_iter_restores in H; [|auto with shape].
    simpl in H. split; [done|]. rewrite H. intros q v. apply cell_blank.
  - intros fuel m s. by apply path_iter_restores.
Qed.

(** The 4x4 board of the specification, from the corner: no tour, and the
    table comes back all zero; and the pruning exit of the first call on the
    3x1 board with the moves (1,0) and (2,0). *)
Lemma failure_restores_table_witness :
  (table (mkState (blank 4 4 0) (Some 2297)) = blank 4 4 0
   ∧ ∀ q v, cell (table (mkState (blank 4 4 0) (Some 2297))) q = Some v → v = 0)
  ∧ table (mkState [[0; 0; 0]] (Some 1)) = table (mkState [[0; 0; 0]] (Some 0)).
Proof.
  split.
  - apply (failure_restores_table true (mkCoords 4 4) delta (mkCoords 0 0)
             (mkState (blank 4 4 9) (Some 5))).
    + split; [reflexivity|repeat constructor].
    + vm_compute. reflexivity.
  - apply (failure_restores_table true (mkCoords 3 1) [mkCoords 1 0; mkCoords 2 0]
             (mkCoords 0 0) (mkState [[0; 0; 0]] (Some 0))) with (fuel := 1%nat) (m := 0).
    + split; [reflexivity|repeat constructor].
    + reflexivity.
Defined.

(** ** C4: when the look-ahead runs *)




(** ** C5: the marked cells form a simple path *)

(** The first two calls of the 5x5 search: [path_find] calls for the corner,
    and that call, having marked the corner, calls for the move (1,2). *)
Example enters_5x5 :
  enters true (mkCoords 5 5) delta (mkCoords 0 0)
         (mkState (blank 5 5 3) (Some 7)) 25
         (mkState (poke (blank 5 5 0) (mkCoords 0 0) 1) (Some 1))
         (mkCoords 1 2) 1.
Proof.
  apply (enters_next true (mkCoords 5 5) delta (mkCoords 0 0)
           (mkState (blank 5 5 3) (Some 7)) 25
           (mkState (blank 5 5 0) (Some 0)) (mkCoords 0 0) 0
           [] (mkCoords 1 2) (tail delta)); try reflexivity.
  by apply (enters_first true (mkCoords 5 5) delta (mkCoords 0 0)
              (mkState (blank 5 5 3) (Some 7)) (mkState (blank 5 5 0) (Some 0))).
Qed.

(** C5.  In a search started by [path_find] on a table of the announced
    size, with a number of cells [width*height] that the code computes
    without overflow, at every call of [path_iter] the marked cells form a
    simple path of [moves] cells which the position of the call continues,
    and they form one when the call returns: the same path after failure,
    one through all the cells after success.  Every mark of an available position that
    continues the path, and every unmark of the last cell, keeps it so. *)
Theorem marked_cells_form_path c sz dl start st0 :
  shaped sz (table st0) →
  int_range (x sz * y sz) →
  (∀ fuel st pos m, enters c sz dl start st0 fuel st pos m →
     simple_path dl (table st) m
     ∧ joins dl (table st) m pos
     ∧ ∀ r s, path_iter c fuel sz dl pos m st = Done (r, s) →
              simple_path dl (table s) (if r then Z.max m (x sz * y sz) else m))
  ∧ (∀ t m pos, simple_path dl t m → available sz t pos → joins dl t m pos →
                simple_path dl (poke t pos (m + 1)) (m + 1))
  ∧ (∀ t m pos, 0 ≤ m → simple_path dl t (m + 1) → cell t pos = Some (m + 1) →
                simple_path dl (poke t pos 0) m).
Proof.
  intros Hsh0 _. split; [|split].
  - intros fuel st pos m Hcall.
    destruct (enters_path _ _ _ _ _ _ _ _ _ Hsh0 Hcall) as (Hsh & Hpath & Hjoin).
    split; [done|]. split; [done|]. intros r s Hrun.
    by destruct (path_iter_path _ _ _ _ _ _ _ _ _ Hsh Hpath Hjoin Hrun).
  - intros t m pos Hpath [_ Hc] Hjoin. by apply simple_path_mark.
  - intros t m pos. apply simple_path_unmark.
Qed.

(** The second call of the 5x5 search: one cell marked, a path of length 1,
    which (1,2) continues. *)
Lemma marked_cells_form_path_witness :
  simple_path delta (poke (blank 5 5 0) (mkCoords 0 0) 1) 1
  ∧ joins delta (poke (blank 5 5 0) (mkCoords 0 0) 1) 1 (mkCoords 1 2)
  ∧ ∀ r s, path_iter true 25 (mkCoords 5 5) delta (mkCoords 1 2) 1
             (mkState (poke (blank 5 5 0) (mkCoords 0 0) 1) (Some 1)) = Done (r, s) →
           simple_path delta (table s) (if r then Z.max 1 (5 * 5) else 1).
Proof.
  refine (proj1 (marked_cells_form_path true (mkCoords 5 5) delta (mkCoords 0 0)
                   (mkState (blank 5 5 3) (Some 7)) _ _)
                25%nat _ (mkCoords 1 2) 1 enters_5x5).
  - split; [reflexivity|repeat constructor].
  - vm_compute. split; discriminate.
Defined.

(** ** C6: boards with at most one cell *)

(** C6, as stated, fails: on the 1x1 board a start outside the board gives
    failure. *)
Lemma tiny_board_start_outside :
  1 * 1 ≤ 1
  ∧ path_find true (mkCoords 1 1) delta (mkCoords 5 5) (mkState [[0]] (Some 0))
    = Done (false, mkState [[0]] (Some 1)).
Proof. split; [lia|reflexivity]. Qed.

(** C6, amended.  With [width*height <= 0], the product being one the code
    computes without overflow ([INT_MIN <= width*height]), [path_find]
    answers success in its first call of [path_iter], whatever the start and
    the move table, and the table is all zero.  On the 1x1 board with a non-empty move table
    it answers success from the start (0,0), in two calls and with that cell
    holding 1, and failure from every other start. *)
Theorem tiny_boards c sz dl pos st :
  shaped sz (table st) →
  (INT_MIN ≤ x sz * y sz ≤ 0 →
   path_find c sz dl pos st = Done (true, counted (start_state sz st)))
  ∧ (sz = mkCoords 1 1 → dl ≠ [] → pos = mkCoords 0 0 →
     path_find c sz dl pos st
     = Done (true, mkState [[1]] (Z.succ <$> (Z.succ <$> zeroed (iter st)))))
  ∧ (sz = mkCoords 1 1 → pos ≠ mkCoords 0 0 →
     path_find c sz dl pos st = Done (false, counted (start_state sz st))).
Proof.
  intros Hsh. rewrite path_find_run by done.
  split; [|split].
  - intros [_ Hsmall]. rewrite path_iter_step by auto with shape.
    by rewrite (geb_true 0) by done.
  - intros -> Hdl ->. destruct dl as [|d dl]; [done|].
    rewrite path_iter_step by auto with shape.
    change (Z.to_nat (x (mkCoords 1 1) * y (mkCoords 1 1))) with 1%nat.
    cbn [until]. unfold bind.
    rewrite (path_iter_step c 0 (mkCoords 1 1) (d :: dl) _ (0 + 1))
      by (split; [reflexivity|repeat constructor]).
    cbn [x y]. change (0 + 1 <? 1 * 1 - 1) with false.
    rewrite andb_false_r. reflexivity.
  - intros -> Hpos. rewrite path_iter_step by auto with shape.
    rewrite (geb_false 0) by done.
    replace (open (mkCoords 1 1) (table (start_state (mkCoords 1 1) st)) pos)
      with false; [done|].
    symmetry. apply not_true_is_false. intros Hopen.
    apply open_inside in Hopen as [[Hx Hy] _]. simpl in *.
    apply Hpos, Coords_eq; simpl; lia.
Qed.

Lemma tiny_boards_witness :
  path_find true (mkCoords 0 7) delta (mkCoords 2 3) (mkState (blank 0 7 4) (Some 6))
  = Done (true, mkState (blank 0 7 0) (Some 1))
  ∧ path_find true (mkCoords 1 1) delta (mkCoords 0 0) (mkState [[4]] (Some 6))
    = Done (true, mkState [[1]] (Some 2))
  ∧ path_find true (mkCoords 1 1) delta (mkCoords 0 3) (mkState [[4]] (Some 6))
    = Done (false, mkState [[0]] (Some 1)).
Proof.
  split; [|split].
  - apply (tiny_boards true (mkCoords 0 7) delta (mkCoords 2 3)
             (mkState (blank 0 7 4) (Some 6)));
      [split; [reflexivity|repeat constructor]|vm_compute; split; discriminate].
  - apply (tiny_boards true (mkCoords 1 1) delta (mkCoords 0 0)
             (mkState [[4]] (Some 6)));
      [split; [reflexivity|repeat constructor]|reflexivity|discriminate|reflexivity].
  - apply (tiny_boards true (mkCoords 1 1) delta (mkCoords 0 3)
             (mkState [[4]] (Some 6)));
      [split; [reflexivity|repeat constructor]|reflexivity|discriminate].
Defined.

(** ** C7: calling [path_find] twice *)

(** C7.  On a table of the announced size, [path_find] answers, and a second
    call with the same arguments on what the first left behind gives the same
    answer and leaves the same table (and the same count). *)
Theorem path_find_twice c sz dl pos st :
  shaped sz (table st) →
  ∃ r s, path_find c sz dl pos st = Done (r, s)
         ∧ path_find c sz dl pos s = Done (r, s).
Proof.
  intros Hsh. destruct (path_find_Done c sz dl pos st Hsh) as (r & s & Hrun).
  exists r, s. split; [done|].
  rewrite path_find_run in Hrun by done.
  pose proof (path_iter_shaped (shaped_start sz st) Hrun) as Hsh'.
  pose proof (path_iter_counter (shaped_start sz st) Hrun) as Hit.
  rewrite path_find_run by done.
  replace (start_state sz s) with (start_state sz st); [done|].
  unfold start_state. f_equal. rewrite Hit. simpl.
  unfold zeroed. by destruct (iter st).
Qed.

Lemma path_find_twice_witness :
  ∃ r s, path_find true (mkCoords 3 4) delta (mkCoords 0 0)
           (mkState (blank 3 4 5) (Some 8)) = Done (r, s)
         ∧ path_find true (mkCoords 3 4) delta (mkCoords 0 0) s = Done (r, s).
Proof.
  apply (path_find_twice true (mkCoords 3 4) delta (mkCoords 0 0)
           (mkState (blank 3 4 5) (Some 8))).
  split; [reflexivity|repeat constructor].
Defined.

(** ** C8: the order of the move table *)

(** C8.  On a table of the announced size, [path_find] with the move table
    in reverse order answers as [path_find] with the table as given: both
    find a path or neither does. *)
Theorem reversed_moves_same_answer c sz dl pos st :
  shaped sz (table st) →
  ∃ r s s', path_find c sz dl pos st = Done (r, s)
            ∧ path_find c sz (reverse dl) pos st = Done (r, s').
Proof.
  intros Hsh.
  destruct (path_find_Done c sz dl pos st Hsh) as (r & s & Hrun).
  destruct (path_find_Done c sz (reverse dl) pos st Hsh) as (r' & s' & Hrun').
  exists r, s, s'. split; [done|]. rewrite Hrun'.
  rewrite path_find_run in Hrun, Hrun' by done. unfold start_state in *.
  assert (Hsame : ∀ d, d ∈ dl ↔ d ∈ reverse dl)
    by (intros d; by rewrite elem_of_reverse).
  by rewrite (same_moves_same_answer c sz dl (reverse dl) Hsame _ _ _ _ _ _ _ _ _ _
                (shaped_blank sz 0) Hrun Hrun').
Qed.

Lemma reversed_moves_same_answer_witness :
  ∃ r s s', path_find true (mkCoords 5 5) delta (mkCoords 0 0)
              (mkState (blank 5 5 0) (Some 0)) = Done (r, s)
            ∧ path_find true (mkCoords 5 5) (reverse delta) (mkCoords 0 0)
                (mkState (blank 5 5 0) (Some 0)) = Done (r, s').
Proof.
  apply (reversed_moves_same_answer true (mkCoords 5 5) delta (mkCoords 0 0)
           (mkState (blank 5 5 0) (Some 0))).
  split; [reflexivity|repeat constructor].
Defined.

(** The path found does depend on the order: the 5x5 tours from the corner
    with the moves as given and in reverse order differ. *)
Example reversed_moves_other_tour :
  ∃ t i i',
    path_find true (mkCoords 5 5) delta (mkCoords 0 0)
      (mkState (blank 5 5 0) None) = Done (true, mkState tour_5x5 i)
    ∧ path_find true (mkCoords 5 5) (reverse delta) (mkCoords 0 0)
        (mkState (blank 5 5 0) None) = Done (true, mkState t i')
    ∧ t ≠ tour_5x5.
Proof.
  do 3 eexists. split; [vm_compute; reflexivity|].
  split; [vm_compute; reflexivity|]. discriminate.
Qed.

(** ** C9: [is_blocked] *)

(** C9.  On a table of the announced size, and for a position to which
    every move of the table can be added without overflow (both sums are
    values that an [int] holds), [is_blocked] answers, leaves the state as
    it found it, and its answer is true exactly when for no move [d] of the
    table the position ([pos.x + d.x], [pos.y + d.y]) is available. *)
Theorem is_blocked_spec sz dl pos st :
  shaped sz (table st) →
  Forall (λ d, int_range (x pos + x d) ∧ int_range (y pos + y d)) dl →
  ∃ b, is_blocked sz dl pos st = Done (b, st)
       ∧ (b = true ↔ ∀ d, d ∈ dl →
            ¬ available sz (table st) (mkCoords (x pos + x d) (y pos + y d))).
Proof.
  intros Hsh _. exists (walled sz dl (table st) pos).
  split; [by apply is_blocked_run|].
  change (walled sz dl (table st) pos = true
          ↔ ∀ d, d ∈ dl → ¬ available sz (table st) (shift pos d)).
  unfold walled. rewrite forallb_forall. split.
  - intros H d Hd Hav. apply list_elem_of_In, H in Hd.
    apply open_available in Hav. rewrite Hav in Hd. done.
  - intros H d Hd. apply list_elem_of_In, H in Hd.
    destruct (open sz (table st) (shift pos d)) eqn:Hopen; [|done].
    destruct Hd. by apply open_available.
Qed.

Lemma is_blocked_spec_witness :
  ∃ b, is_blocked (mkCoords 3 3) delta (mkCoords 1 1)
         (mkState [[0; 0; 0]; [0; 0; 0]; [0; 0; 0]] None)
       = Done (b, mkState [[0; 0; 0]; [0; 0; 0]; [0; 0; 0]] None)
       ∧ (b = true ↔ ∀ d, d ∈ delta →
            ¬ available (mkCoords 3 3) [[0; 0; 0]; [0; 0; 0]; [0; 0; 0]]
                (mkCoords (x (mkCoords 1 1) + x d) (y (mkCoords 1 1) + y d))).
Proof.
  apply (is_blocked_spec (mkCoords 3 3) delta (mkCoords 1 1)
           (mkState [[0; 0; 0]; [0; 0; 0]; [0; 0; 0]] None)).
  - split; [reflexivity|repeat constructor].
  - repeat constructor; vm_compute; discriminate.
Defined.

(** On the empty 3x3 board the centre is blocked for the knight, the corner
    is not. *)
Example is_blocked_3x3 :
  is_blocked (mkCoords 3 3) delta (mkCoords 1 1) (mkState (blank 3 3 0) None)
  = Done (true, mkState (blank 3 3 0) None)
  ∧ is_blocked (mkCoords 3 3) delta (mkCoords 0 0) (mkState (blank 3 3 0) None)
    = Done (false, mkState (blank 3 3 0) None).
Proof. split; reflexivity. Qed.

(** ** C10: every access is inside the table *)

(** C10.  On a table of the announced size no access leaves the table:
    [is_available] and [is_blocked] answer, [path_iter] never stops with
    [OutOfRange] whatever its fuel and answers when it has fuel for the
    cells still to fill, and [path_find] answers. *)
Theorem accesses_in_range c sz dl pos st :
  shaped sz (table st) →
  (∃ b, is_available sz pos st = Done (b, st))
  ∧ (∃ b, is_blocked sz dl pos st = Done (b, st))
  ∧ (∀ fuel m, path_iter c fuel sz dl pos m st ≠ OutOfRange)
  ∧ (∀ fuel m, (Z.to_nat (x sz * y sz - m) < fuel)%nat →
               ∃ r s, path_iter c fuel sz dl pos m st = Done (r, s))
  ∧ (∃ r s, path_find c sz dl pos st = Done (r, s)).
Proof.
  intros Hsh. split; [|split; [|split; [|split]]].
  - eexists. by apply is_available_run.
  - eexists. by apply is_blocked_run.
  - intros fuel m. by apply path_iter_in_range.
  - intros fuel m. by apply path_iter_Done.
  - by apply path_find_Done.
Qed.

Lemma accesses_in_range_witness :
  (∃ b, is_available (mkCoords 3 4) (mkCoords 7 (-2))
          (mkState (blank 3 4 0) None) = Done (b, mkState (blank 3 4 0) None))
  ∧ (∃ b, is_blocked (mkCoords 3 4) delta (mkCoords 7 (-2))
            (mkState (blank 3 4 0) None) = Done (b, mkState (blank 3 4 0) None))
  ∧ (∀ fuel m, path_iter true fuel (mkCoords 3 4) delta (mkCoords 7 (-2)) m
                 (mkState (blank 3 4 0) None) ≠ OutOfRange)
  ∧ (∀ fuel m, (Z.to_nat (3 * 4 - m) < fuel)%nat →
               ∃ r s, path_iter true fuel (mkCoords 3 4) delta (mkCoords 7 (-2)) m
                        (mkState (blank 3 4 0) None) = Done (r, s))
  ∧ (∃ r s, path_find true (mkCoords 3 4) delta (mkCoords 7 (-2))
              (mkState (blank 3 4 0) None) = Done (r, s)).
Proof.
  apply (accesses_in_range true (mkCoords 3 4) delta (mkCoords 7 (-2))
           (mkState (blank 3 4 0) None)).
  split; [reflexivity|repeat constructor].
Defined.

(** A table smaller than announced is what the hypothesis excludes: there
    the first access already leaves the table. *)
Example access_out_of_range :
  path_find true (mkCoords 2 2) delta (mkCoords 0 0) (mkState [[0; 0]] None)
  = OutOfRange.
Proof. reflexivity. Qed.

(** * Part 5.  More of the code *)

(** ** The counter is only counted *)

Section Blind.
Context (h : option Z → option Z).

Lemma blind_ret {A} (a : A) : iter_blind h (ret a).
Proof. by intros st. Qed.

Lemma blind_bind {A B} (c : M A) (k : A → M B) :
  iter_blind h c → (∀ a, iter_blind h (k a)) → iter_blind h (bind c k).
Proof.
  intros Hc Hk st. unfold bind. rewrite Hc.
  destruct (c st) as [[a s]| |]; simpl; [apply Hk|done..].
Qed.

Lemma blind_load p : iter_blind h (load p).
Proof. intros st. unfold load. simpl. by destruct (cell (table st) p). Qed.

Lemma blind_store p v : iter_blind h (store p v).
Proof. intros st. unfold store. simpl. by destruct (cell (table st) p). Qed.

Lemma blind_until {A} (f : A → M bool) l :
  (∀ a, iter_blind h (f a)) → iter_blind h (until f l).
Proof.
  intros Hf. induction l as [|a l IH]; simpl; [apply blind_ret|].
  apply blind_bind; [apply Hf|]. intros []; [apply blind_ret|apply IH].
Qed.

Lemma blind_each {A} (f : A → M unit) l :
  (∀ a, iter_blind h (f a)) → iter_blind h (each f l).
Proof.
  intros Hf. induction l as [|a l IH]; simpl; [apply blind_ret|].
  apply blind_bind; [apply Hf|]. intros _. apply IH.
Qed.

Lemma blind_is_available sz p : iter_blind h (is_available sz p).
Proof.
  unfold is_available.
  destruct ((x p <? 0) || (x p >=? x sz) || (y p <? 0) || (y p >=? y sz));
    [apply blind_ret|].
  apply blind_bind; [apply blind_load|]. intros v.
  destruct (v =? 0); apply blind_ret.
Qed.

Lemma blind_is_blocked sz dl p : iter_blind h (is_blocked sz dl p).
Proof.
  unfold is_blocked. apply blind_bind.
  - apply blind_until. intros d. apply blind_is_available.
  - intros []; apply blind_ret.
Qed.

Lemma blind_blocks_open_space sz dl p : iter_blind h (blocks_open_space sz dl p).
Proof.
  unfold blocks_open_space. apply blind_until. intros d.
  apply blind_bind; [apply blind_is_available|].
  intros []; [apply blind_is_blocked|apply blind_ret].
Qed.

Lemma blind_fill_zeros sz : iter_blind h (fill_zeros sz).
Proof.
  unfold fill_zeros. apply blind_each. intros i. apply blind_each. intros j.
  apply blind_store.
Qed.

(** Pathfinder 1.0 has no counter at all. *)
Lemma blind_path_iter_1_0 sz dl fuel : ∀ pos m,
  iter_blind h (V1_0.path_iter fuel sz dl pos m).
Proof.
  induction fuel as [|fuel IH]; intros pos m; simpl; [done|].
  destruct (m >=? x sz * y sz); [apply blind_ret|].
  destruct ((x pos <? 0) || (x pos >=? x sz) || (y pos <? 0) || (y pos >=? y sz));
    [apply blind_ret|].
  apply blind_bind; [apply blind_load|]. intros v.
  destruct (negb (v =? 0)); [apply blind_ret|].
  apply blind_bind; [apply blind_store|]. intros _.
  apply blind_bind; [apply blind_until; intros d; apply IH|].
  intros []; [apply blind_ret|].
  apply blind_bind; [apply blind_store|]. intros _. apply blind_ret.
Qed.

(** [path_iter] only adds to the counter: it does the same whatever is made
    of the counter, as long as adding one is kept. *)
Context (Hsucc : ∀ i, h (Z.succ <$> i) = Z.succ <$> h i).

Lemma blind_count_iter : iter_blind h count_iter.
Proof using Hsucc.
  intros [t i]. unfold count_iter, lift_iter, with_iter. cbn [table iter].
  by rewrite Hsucc.
Qed.

Lemma blind_path_iter c sz dl fuel : ∀ pos m,
  iter_blind h (path_iter c fuel sz dl pos m).
Proof using Hsucc.
  induction fuel as [|fuel IH]; intros pos m; simpl; [done|].
  apply blind_bind; [apply blind_count_iter|]. intros _.
  destruct (m >=? x sz * y sz); [apply blind_ret|].
  apply blind_bind; [apply blind_is_available|]. intros a.
  destruct (negb a); [apply blind_ret|].
  apply blind_bind; [apply blind_store|]. intros _.
  apply blind_bind.
  { destruct (c && (m + 1 <? x sz * y sz - 1));
      [apply blind_blocks_open_space|apply blind_ret]. }
  intros []; [apply blind_bind; [apply blind_store|]; intros _; apply blind_ret|].
  apply blind_bind; [apply blind_until; intros d; apply IH|].
  intros []; [apply blind_ret|].
  apply blind_bind; [apply blind_store|]. intros _. apply blind_ret.
Qed.

End Blind.

(** A call entered without a counter returns without one. *)
Lemma path_iter_keeps_null c sz dl fuel pos m st r s :
  iter st = None →
  path_iter c fuel sz dl pos m st = Done (r, s) → iter s = None.
Proof.
  intros Hnone Hrun.
  pose proof (blind_path_iter (λ _, None) (λ _, eq_refl) c sz dl fuel pos m st)
    as Hblind.
  replace (with_iter (λ _, None) st) with st in Hblind
    by (destruct st; simpl in *; by subst).
  rewrite Hrun in Hblind. simpl in Hblind. by injection Hblind as ->.
Qed.

(** The zero-fill leaves the counter alone. *)
Lemma fill_zeros_iter sz st u s :
  fill_zeros sz st = Done (u, s) → iter s = iter st.
Proof.
  intros Hrun.
  pose proof (blind_fill_zeros (λ _, iter st) sz st) as Hblind.
  replace (with_iter (λ _, iter st) st) with st in Hblind by by destruct st.
  rewrite Hrun in Hblind. simpl in Hblind. by injection Hblind as ->.
Qed.

(** X1.  The counter never tells on the search.  Starting [path_iter] with
    the count [k] higher gives the same answer and the same table, with the
    final count [k] higher, as long as the counts the two runs start and end
    with are values that an [int] holds (no increment overflows); calling it
    with [iter = NULL] gives the same answer and table.  For [path_find] the
    starting count does not matter at all, and [iter = NULL] changes only
    that nothing is counted. *)
Theorem counter_is_diagnostic c sz dl pos t i :
  (∀ fuel m k,
     int_range i → int_range (i + k) →
     count_fits (path_iter c fuel sz dl pos m (mkState t (Some i))) →
     count_fits (path_iter c fuel sz dl pos m (mkState t (Some (i + k)))) →
     path_iter c fuel sz dl pos m (mkState t (Some (i + k)))
     = lift_iter (fmap (λ j, j + k))
         (path_iter c fuel sz dl pos m (mkState t (Some i))))
  ∧ (∀ fuel m,
       path_iter c fuel sz dl pos m (mkState t None)
       = lift_iter (λ _, None)
           (path_iter c fuel sz dl pos m (mkState t (Some i))))
  ∧ (∀ i', path_find c sz dl pos (mkState t (Some i'))
           = path_find c sz dl pos (mkState t (Some i)))
  ∧ path_find c sz dl pos (mkState t None)
    = lift_iter (λ _, None) (path_find c sz dl pos (mkState t (Some i))).
Proof.
  split; [|split; [|split]].
  - intros fuel m k _ _ _ _.
    assert (Hsucc : ∀ j : option Z, (λ n, n + k) <$> (Z.succ <$> j)
                                    = Z.succ <$> ((λ n, n + k) <$> j)).
    { intros [j|]; simpl; [|done]. f_equal. lia. }
    exact (blind_path_iter _ Hsucc c sz dl fuel pos m (mkState t (Some i))).
  - intros fuel m.
    exact (blind_path_iter (λ _, None) (λ _, eq_refl) c sz dl fuel pos m
             (mkState t (Some i))).
  - intros i'. unfold path_find, bind.
    pose proof (blind_fill_zeros (λ _, Some i') sz (mkState t (Some i))) as Hfill.
    unfold with_iter in Hfill. simpl in Hfill. rewrite Hfill.
    destruct (fill_zeros sz (mkState t (Some i))) as [[[] [t' j]]| |] eqn:Hrun;
      [|done..].
    apply fill_zeros_iter in Hrun. simpl in Hrun. by subst j.
  - unfold path_find, bind.
    pose proof (blind_fill_zeros (λ _, None) sz (mkState t (Some i))) as Hfill.
    unfold with_iter in Hfill. simpl in Hfill. rewrite Hfill.
    destruct (fill_zeros sz (mkState t (Some i))) as [[[] [t' j]]| |];
      [|done..].
    exact (blind_path_iter (λ _, None) (λ _, eq_refl) c sz dl _ pos 0
             (mkState t' (zeroed j))).
Qed.

(** Three calls on the 3x1 board, counted from 5 and from 15. *)
Lemma counter_is_diagnostic_witness :
  path_iter true 4 (mkCoords 3 1) [mkCoords 1 0] (mkCoords 0 0) 0
    (mkState [[0; 0; 0]] (Some (5 + 10)))
  = lift_iter (fmap (λ j, j + 10))
      (path_iter true 4 (mkCoords 3 1) [mkCoords 1 0] (mkCoords 0 0) 0
         (mkState [[0; 0; 0]] (Some 5))).
Proof.
  apply (proj1 (counter_is_diagnostic true (mkCoords 3 1) [mkCoords 1 0]
                  (mkCoords 0 0) [[0; 0; 0]] 5) 4%nat 0 10);
    vm_compute; split; discriminate.
Defined.

(** ** Pathfinder 1.0 and Path 1.2 *)

Lemma count_iter_null {A} (k : M A) t :
  (count_iter;; k) (mkState t None) = k (mkState t None).
Proof. reflexivity. Qed.

(** Built without the check and called with [iter = NULL], the [path_iter]
    of Path 1.2 runs as the [path_iter] of Pathfinder 1.0. *)
Lemma path_iter_1_0_unchecked sz dl fuel : ∀ pos m st,
  iter st = None →
  V1_0.path_iter fuel sz dl pos m st = path_iter false fuel sz dl pos m st.
Proof.
  induction fuel as [|fuel IH]; intros pos m [t i] Hnone; simpl in Hnone;
    subst i; [done|].
  cbn [V1_0.path_iter path_iter]. rewrite count_iter_null.
  destruct (m >=? x sz * y sz); [done|].
  unfold is_available.
  destruct ((x pos <? 0) || (x pos >=? x sz) || (y pos <? 0) || (y pos >=? y sz));
    [reflexivity|].
  unfold bind, load, store, ret. simpl.
  destruct (cell t pos) as [v|] eqn:Hc; [|done].
  destruct (v =? 0) eqn:Hv; simpl; [|done]. rewrite Hc.
  rewrite (until_ext _ (λ d, path_iter false fuel sz dl (shift pos d) (m + 1))
             (λ st, iter st = None)); [done| |done].
  intros d st Hnone. split; [by apply IH|].
  intros r s. rewrite IH by done. by apply path_iter_keeps_null.
Qed.

Lemma path_find_1_0_unchecked sz dl pos st :
  iter st = None →
  V1_0.path_find sz dl pos st = path_find false sz dl pos st.
Proof.
  intros Hnone. unfold V1_0.path_find, path_find, bind.
  destruct (fill_zeros sz st) as [[[] s]| |] eqn:Hfill; [|done..].
  apply fill_zeros_iter in Hfill. rewrite Hnone in Hfill.
  destruct s as [t i]. simpl in Hfill. subst i.
  by apply path_iter_1_0_unchecked.
Qed.

(** X2.  Pathfinder 1.0 is Path 1.2 without its additions: on a state
    without a counter ([iter = NULL]), [path_iter] and [path_find] of
    version 1.0 run exactly as those of version 1.2 built with
    [ENABLE_CHECK] 0, whatever the table, the fuel and the arguments. *)
Theorem pathfinder_1_0_is_path_1_2_unchecked sz dl pos t :
  (∀ fuel m, V1_0.path_iter fuel sz dl pos m (mkState t None)
             = path_iter false fuel sz dl pos m (mkState t None))
  ∧ V1_0.path_find sz dl pos (mkState t None)
    = path_find false sz dl pos (mkState t None).
Proof.
  split.
  - intros fuel m. by apply path_iter_1_0_unchecked.
  - by apply path_find_1_0_unchecked.
Qed.

(** ** What a call writes *)

Lemma marks_between_refl m n t : marks_between m n t t.
Proof. intros q. by left. Qed.

Lemma marks_between_mark m n t t' pos :
  m < n → cell t pos = Some 0 →
  marks_between (m + 1) n (poke t pos (m + 1)) t' →
  marks_between m n t t'.
Proof.
  intros Hm Hc Hrest q. specialize (Hrest q).
  rewrite (cell_poke _ _ _ _ _ Hc) in Hrest.
  destruct (decide (pos = q)) as [<-|Hne].
  - right. split; [done|].
    destruct Hrest as [->|[_ (v & -> & Hv)]]; eexists; (split; [done|lia]).
  - destruct Hrest as [->|[Hq (v & -> & Hv)]]; [by left|].
    right. split; [done|]. exists v. split; [done|lia].
Qed.

Lemma path_iter_marks c sz dl fuel : ∀ pos m st r s,
  shaped sz (table st) →
  path_iter c fuel sz dl pos m st = Done (r, s) →
  marks_between m (x sz * y sz) (table st) (table s).
Proof.
  induction fuel as [|fuel IH]; intros pos m st r s Hsh; [done|].
  rewrite path_iter_step by done.
  destruct (geb_cases m (x sz * y sz)) as [[Hfull ->]|[Hfull ->]].
  { intros [= <- <-]. apply marks_between_refl. }
  destruct (open sz (table st) pos) eqn:Hopen; simpl;
    [|intros [= <- <-]; apply marks_between_refl].
  destruct (open_inside Hopen) as [Hin Hc].
  destruct (c && (m + 1 <? x sz * y sz - 1) && orphans sz dl _ pos).
  { intros [= <- <-]. apply marks_between_refl. }
  set (t1 := poke (table st) pos (m + 1)).
  assert (Hsh1 : shaped sz t1) by (unfold t1; auto with shape).
  destruct (until _ dl _) as [[r' s']| |] eqn:Hloop; [|by destruct r..].
  apply (until_keeps _ t1) in Hloop; [|by apply rounds_restore|done].
  destruct r'.
  - destruct Hloop as (d & st1 & _ & Ht1 & Hrun). intros [= <- <-].
    rewrite <- Ht1 in Hsh1. apply (marks_between_mark _ _ _ _ pos); [done..|].
    fold t1. rewrite <- Ht1. by eapply IH.
  - rewrite (unmark_run (table st) pos (m + 1)) by done.
    intros [= <- <-]. apply marks_between_refl.
Qed.

(** X3.  A call of [path_iter], on any table of the announced size (reset
    or not) and with any number of moves, writes only into cells that held
    0, and leaves in them only move numbers above [moves], up to
    [width*height]; every other cell is as it was, so marks that were there
    are never overwritten. *)
Theorem path_iter_writes_new_marks c sz dl fuel pos m st r s :
  shaped sz (table st) →
  path_iter c fuel sz dl pos m st = Done (r, s) →
  ∀ q, cell (table s) q = cell (table st) q
       ∨ (cell (table st) q = Some 0
          ∧ ∃ v, cell (table s) q = Some v ∧ m < v ≤ x sz * y sz).
Proof.
  intros Hsh Hrun q. by apply (path_iter_marks c sz dl fuel pos m st r s).
Qed.

(** A board half filled by hand: the search goes on from move 3 and keeps
    the 1 and the 2 that were there. *)
Lemma path_iter_writes_new_marks_witness :
  cell [[1; 2; 3; 4]] (mkCoords 3 0) = cell [[1; 2; 0; 0]] (mkCoords 3 0)
  ∨ (cell [[1; 2; 0; 0]] (mkCoords 3 0) = Some 0
     ∧ ∃ v, cell [[1; 2; 3; 4]] (mkCoords 3 0) = Some v ∧ 2 < v ≤ 4 * 1).
Proof.
  apply (path_iter_writes_new_marks true (mkCoords 4 1) [mkCoords 1 0] 3
           (mkCoords 2 0) 2 (mkState [[1; 2; 0; 0]] None) true
           (mkState [[1; 2; 3; 4]] None)).
  - split; [reflexivity|repeat constructor].
  - reflexivity.
Defined.

(** ** Tours *)

Lemma cell_Some_inside sz t p v : shaped sz t → cell t p = Some v → inside sz p.
Proof.
  intros Hsh Hc. destruct (cell_Some_nonneg Hc) as [Hx Hy].
  destruct (cell_rows Hc) as (row & Hrow & Hv).
  pose proof (shaped_row Hsh Hrow) as Hlen.
  apply lookup_lt_Some in Hrow, Hv. destruct Hsh as [Hrows _].
  split; lia.
Qed.

Lemma linked_lookup dl ps : linked dl ps →
  ∀ k p q, ps !! k = Some p → ps !! S k = Some q →
           ∃ d, d ∈ dl ∧ q = mkCoords (x p + x d) (y p + y d).
Proof.
  induction ps as [|p0 [|q0 ps] IH]; [done..|].
  intros [Hd Hrest] [|k] p q.
  - by intros [= <-] [= <-].
  - intros Hp Hq. by apply (IH Hrest k).
Qed.

Lemma lookup_linked dl ps :
  (∀ k p q, ps !! k = Some p → ps !! S k = Some q →
            ∃ d, d ∈ dl ∧ q = mkCoords (x p + x d) (y p + y d)) →
  linked dl ps.
Proof.
  induction ps as [|p0 [|q0 ps] IH]; [done..|].
  intros Hall. split; [by apply (Hall 0%nat)|].
  apply IH. intros k p q Hp Hq. by apply (Hall (S k)).
Qed.

(** The cells holding 1..[n] of a table that holds a path, in order. *)
Lemma numbers_list dl t m :
  simple_path dl t m →
  ∀ n : nat, Z.of_nat n ≤ m → ∃ ps, length ps = n ∧ numbers t ps.
Proof.
  intros (_ & Hall & _). induction n as [|n IH]; intros Hn.
  - exists []. split; [done|]. by intros k p.
  - destruct IH as (ps & Hlen & Hnum); [lia|].
    destruct (Hall (Z.of_nat n + 1)) as [p Hp]; [lia|].
    exists (ps ++ [p]). split; [rewrite length_app; simpl; lia|].
    intros k q Hq. apply lookup_app_Some in Hq as [Hq|[Hk Hq]]; [by apply Hnum|].
    rewrite Hlen in Hk, Hq. apply list_lookup_singleton_Some in Hq as [Hk' <-].
    by replace k with n by lia.
Qed.

(** A full table read as a list of positions is a tour. *)
Lemma numbers_tour sz dl start t ps :
  shaped sz t →
  simple_path dl t (x sz * y sz) →
  cell t start = Some 1 →
  numbers t ps →
  Z.of_nat (length ps) = x sz * y sz →
  1 ≤ x sz * y sz →
  tour sz dl start ps.
Proof.
  intros Hsh (_ & _ & Hone & _ & Hlink) Hstart Hnum Hlen Hcells.
  split; [done|]. split; [|split; [|split]].
  - apply NoDup_alt. intros i j p Hi Hj.
    apply Hnum in Hi, Hj. rewrite Hi in Hj. injection Hj as Hj. lia.
  - intros p Hp. apply list_elem_of_lookup in Hp as [k Hk].
    eapply cell_Some_inside; [done|]. by apply Hnum in Hk.
  - destruct ps as [|p ps]; [simpl in Hlen; lia|]. simpl. f_equal.
    apply (Hone p start 1); [done| |done]. by apply (Hnum 0%nat).
  - apply lookup_linked. intros k p q Hp Hq. apply Hnum in Hp, Hq.
    apply (Hlink p q (Z.of_nat k + 1)); [lia|done|].
    rewrite Hq. f_equal. lia.
Qed.

(** The search without the check follows what is left of a tour: from a
    table where the positions still to come are open, the call for the next
    one answers true. *)
Lemma finds_rest sz dl (Hdl : dl ≠ []) fuel : ∀ ps pos m st,
  shaped sz (table st) →
  (Z.to_nat (x sz * y sz - m) < fuel)%nat →
  Z.of_nat (length (pos :: ps)) = x sz * y sz - m →
  NoDup (pos :: ps) →
  (∀ p, p ∈ pos :: ps → open sz (table st) p = true) →
  linked dl (pos :: ps) →
  ∃ s, path_iter false fuel sz dl pos m st = Done (true, s).
Proof.
  induction fuel as [|fuel IH]; intros ps pos m st Hsh Hfuel Hlen Hnd Hopen Hlk;
    [lia|].
  rewrite path_iter_step by done. simpl in Hlen.
  rewrite geb_false by lia.
  pose proof (Hopen pos ltac:(left)) as Hpos. rewrite Hpos. simpl.
  destruct (open_inside Hpos) as [Hin Hc].
  set (t1 := poke (table st) pos (m + 1)).
  assert (Hsh1 : shaped sz t1) by (unfold t1; auto with shape).
  destruct (until_Done (λ d, path_iter false fuel sz dl (shift pos d) (m + 1))
              (λ s, shaped sz (table s)) dl) with (st := marked pos m st)
    as (r & s & Hloop); [|done|].
  { intros d s0 Hs0.
    destruct (path_iter_Done false sz dl fuel (shift pos d) (m + 1) s0)
      as (r & s & Hrun); [done|lia|].
    exists r, s. split; [done|]. by eapply path_iter_shaped. }
  rewrite Hloop. destruct r; [by eauto|]. exfalso.
  pose proof (until_false_all _ t1 dl
                (rounds_restore false sz dl dl fuel pos (m + 1) t1 Hsh1)
                (marked pos m st) s eq_refl Hloop) as Hall.
  apply NoDup_cons in Hnd as [Hfresh Hnd].
  destruct ps as [|q ps].
  - (* [pos] was the last cell: any move from it finds the table full *)
    destruct dl as [|d dl']; [done|].
    destruct (Hall d) as (st1 & s1 & Ht1 & Hrun); [left|].
    destruct fuel as [|fuel]; [done|].
    rewrite <- Ht1 in Hsh1. rewrite path_iter_step in Hrun by done.
    simpl in Hlen. by rewrite geb_true in Hrun by lia.
  - (* the tour goes on to [q]: the call for it cannot answer false *)
    destruct Hlk as [(d & Hd & ->) Hlk].
    destruct (Hall d Hd) as (st1 & s1 & Ht1 & Hrun).
    destruct (IH ps (shift pos d) (m + 1) st1) as (s2 & Hrun2).
    + by rewrite Ht1.
    + lia.
    + simpl. simpl in Hlen. lia.
    + done.
    + intros p Hp. rewrite Ht1. unfold t1. rewrite open_poke_other; [|done|].
      * apply Hopen. by right.
      * intros <-. done.
    + done.
    + by rewrite Hrun in Hrun2.
Qed.

Lemma open_blank sz p :
  inside sz p → open sz (blank (Z.to_nat (x sz)) (Z.to_nat (y sz)) 0) p = true.
Proof.
  intros Hin. apply open_available. split; [done|].
  destruct (cell_inside sz _ p (shaped_blank sz 0) Hin) as [v Hv].
  by rewrite Hv, (cell_blank _ _ _ _ _ Hv).
Qed.

Lemma tour_starts sz dl start ps :
  1 ≤ x sz * y sz → tour sz dl start ps →
  ∃ ps', ps = start :: ps' ∧ inside sz start.
Proof.
  intros Hcells (Hlen & _ & Hin & Hhead & _).
  destruct ps as [|p ps']; [done|]. injection Hhead as ->.
  exists ps'. split; [done|]. apply Hin. by left.
Qed.

(** A table left by a successful search lists a tour. *)
Lemma path_find_sound c sz dl start st s :
  shaped sz (table st) → 1 ≤ x sz * y sz →
  path_find c sz dl start st = Done (true, s) →
  ∃ ps, tour sz dl start ps ∧ numbers (table s) ps.
Proof.
  intros Hsh Hcells. rewrite path_find_run by done. intros Hrun.
  pose proof (shaped_start sz st) as Hsh0.
  pose proof (path_iter_shaped Hsh0 Hrun) as Hshs.
  destruct (path_iter_path c sz dl _ _ _ _ _ _ Hsh0
              (simple_path_blank dl _ _) ltac:(by intros p ?) Hrun)
    as [Hpath Hstart].
  rewrite Z.max_r in Hpath by lia.
  destruct (numbers_list dl (table s) _ Hpath (Z.to_nat (x sz * y sz)))
    as (ps & Hlen & Hnum); [lia|].
  exists ps. split; [|done].
  apply (numbers_tour sz dl start (table s)); [done|done| |done|lia|done].
  apply Hstart; [done|lia].
Qed.

(** When a tour exists the search answers true. *)
Lemma path_find_complete c sz dl start st ps :
  shaped sz (table st) → 1 ≤ x sz * y sz → dl ≠ [] →
  (c = true → symmetric dl) →
  tour sz dl start ps →
  ∃ s, path_find c sz dl start st = Done (true, s).
Proof.
  intros Hsh Hcells Hdl Hsym Htour.
  destruct (tour_starts sz dl start ps Hcells Htour) as (ps' & -> & Hstart).
  destruct Htour as (Hlen & Hnd & Hin & _ & Hlk).
  pose proof (shaped_start sz st) as Hsh0.
  destruct (finds_rest sz dl Hdl (S (Z.to_nat (x sz * y sz))) ps' start 0
              (start_state sz st)) as (s' & Hoff);
    [done|lia|lia|done| |done|].
  { intros p Hp. apply open_blank. by apply Hin. }
  rewrite path_find_run by done.
  destruct c; [|by exists s'].
  destruct (path_iter_Done true sz dl (S (Z.to_nat (x sz * y sz))) start 0
              (start_state sz st)) as (r & s & Hon); [done|lia|].
  destruct Hstart as [Hx Hy].
  destruct (check_agrees sz dl (Hsym eq_refl) _ _ _ _ _ _ _ _ _ _
              Hsh0 (zeros_start sz st ltac:(lia) ltac:(lia)) ltac:(done) Hon Hoff)
    as [-> _].
  by exists s.
Qed.

(** X4.  [path_find] decides whether the board has a tour.  On a board with
    at least one cell and a number of cells that an [int] holds
    ([1 <= width*height <= INT_MAX], so that the product the code computes
    does not overflow), and with a move table that is not empty (and, in the
    build with the check, holds the opposite of each move), it answers true
    exactly when some list of positions visits every cell once, starting at
    the start and going from cell to cell by moves of the table; the table
    it leaves then numbers such a tour.  The backtracking misses nothing:
    when it answers false there is no tour at all. *)
Theorem search_decides_tours c sz dl start st :
  shaped sz (table st) →
  1 ≤ x sz * y sz ≤ INT_MAX →
  dl ≠ [] →
  (c = true → symmetric dl) →
  ∃ r s, path_find c sz dl start st = Done (r, s)
         ∧ (r = true → ∃ ps, tour sz dl start ps ∧ numbers (table s) ps)
         ∧ (r = false → ∀ ps, ¬ tour sz dl start ps).
Proof.
  intros Hsh [Hcells _] Hdl Hsym.
  destruct (path_find_Done c sz dl start st Hsh) as (r & s & Hrun).
  exists r, s. split; [done|]. split.
  - intros ->. by eapply path_find_sound.
  - intros -> ps Htour.
    destruct (path_find_complete c sz dl start st ps) as (s' & Hyes); [done..|].
    by rewrite Hrun in Hyes.
Qed.

Lemma search_decides_tours_witness :
  ∃ r s, path_find true (mkCoords 4 4) delta (mkCoords 0 0)
           (mkState (blank 4 4 0) (Some 0)) = Done (r, s)
         ∧ (r = true →
            ∃ ps, tour (mkCoords 4 4) delta (mkCoords 0 0) ps ∧ numbers (table s) ps)
         ∧ (r = false → ∀ ps, ¬ tour (mkCoords 4 4) delta (mkCoords 0 0) ps).
Proof.
  apply (search_decides_tours true (mkCoords 4 4) delta (mkCoords 0 0)
           (mkState (blank 4 4 0) (Some 0))).
  - split; [reflexivity|repeat constructor].
  - vm_compute. split; discriminate.
  - done.
  - intros _. apply symmetric_delta.
Defined.

(** ** Searches that cannot start *)

(** X5.  With an empty move table, or from a start outside the board, the
    search on a board with at least one cell, and a number of cells that an
    [int] holds ([1 <= width*height <= INT_MAX]), is over after one call: it
    answers false, leaves the table filled with zeros and has counted 1.
    This holds even on the 1x1 board from its only cell with no moves, where
    the start alone would be a tour: the test for a full table is made at
    the entry of a call, and without moves no further call is made. *)
Theorem search_cannot_start c sz dl pos st :
  shaped sz (table st) →
  1 ≤ x sz * y sz ≤ INT_MAX →
  dl = [] ∨ ¬ inside sz pos →
  path_find c sz dl pos st = Done (false, counted (start_state sz st)).
Proof.
  intros Hsh [Hcells _] Hno. rewrite path_find_run by done.
  rewrite path_iter_step by apply shaped_start.
  rewrite geb_false by lia.
  destruct (open sz (table (start_state sz st)) pos) eqn:Hopen; simpl; [|done].
  destruct (open_inside Hopen) as [Hin Hc].
  destruct Hno as [->|Hout]; [|done].
  simpl. rewrite !andb_false_r.
  by rewrite (unmark_run (table (start_state sz st)) pos (0 + 1)).
Qed.

Lemma search_cannot_start_witness :
  path_find true (mkCoords 1 1) [] (mkCoords 0 0) (mkState [[7]] (Some 3))
  = Done (false, counted (start_state (mkCoords 1 1) (mkState [[7]] (Some 3)))).
Proof.
  apply (search_cannot_start true (mkCoords 1 1) [] (mkCoords 0 0)
           (mkState [[7]] (Some 3))).
  - split; [reflexivity|repeat constructor].
  - vm_compute. split; discriminate.
  - by left.
Defined.

(** ** What was in the table before *)

(** X6.  [path_find] does not look at what the table held: it clears every
    cell before the search, so from two tables of the announced size, with
    whatever marks a previous search or anything else left there, it gives
    the same answer, the same table and the same count. *)
Theorem stale_table_ignored c sz dl pos t t' i :
  shaped sz t → shaped sz t' →
  path_find c sz dl pos (mkState t i) = path_find c sz dl pos (mkState t' i).
Proof.
  intros Hsh Hsh'. by rewrite !path_find_run.
Qed.

Lemma stale_table_ignored_witness :
  path_find true (mkCoords 5 5) delta (mkCoords 0 0) (mkState tour_5x5 (Some 9))
  = path_find true (mkCoords 5 5) delta (mkCoords 0 0)
      (mkState (blank 5 5 (-1)) (Some 9)).
Proof.
  apply (stale_table_ignored true (mkCoords 5 5) delta (mkCoords 0 0)
           tour_5x5 (blank 5 5 (-1)) (Some 9));
    (split; [reflexivity|repeat constructor]).
Defined.

(** ** The number of calls *)

Section Racing.
Context {A : Type} (f g : A → M bool).

(** Two loops run side by side: [R] relates the states between the rounds,
    [Q] the states after a round that answered true. *)
Lemma until_race (R Q : State → State → Prop) l :
  (∀ a st st' r r' s s', a ∈ l → R st st' →
     f a st = Done (r, s) → g a st' = Done (r', s') →
     r = r' ∧ if r then Q s s' else R s s') →
  ∀ st st' r r' s s', R st st' →
    until f l st = Done (r, s) → until g l st' = Done (r', s') →
    r = r' ∧ if r then Q s s' else R s s'.
Proof.
  induction l as [|a l IH]; intros Hfg st st' r r' s s' HR; simpl.
  - by intros [= <- <-] [= <- <-].
  - intros H H'. apply bind_Done in H as (b & st1 & Ha & H).
    apply bind_Done in H' as (b' & st1' & Ha' & H').
    destruct (Hfg a st st' b b' st1 st1') as (<- & Hpost); [left|done..|].
    destruct b.
    + injection H as <- <-. injection H' as <- <-. done.
    + apply (IH (λ a0 u u' b0 b0' v v' Hin,
                   Hfg a0 u u' b0 b0' v v' (list_elem_of_further _ _ _ Hin))
                st1 st1'); done.
Qed.
End Racing.

(** Every call counts itself: the counter is higher when it returns. *)
Lemma path_iter_ticks c sz dl fuel : ∀ pos m st r s i,
  shaped sz (table st) → iter st = Some i →
  path_iter c fuel sz dl pos m st = Done (r, s) →
  ∃ j, iter s = Some j ∧ i < j.
Proof.
  induction fuel as [|fuel IH]; intros pos m st r s i Hsh Hi; [done|].
  rewrite path_iter_step by done.
  assert (Hone : ∃ j, iter (counted st) = Some j ∧ i < j).
  { exists (Z.succ i). simpl. rewrite Hi. split; [done|lia]. }
  destruct (m >=? x sz * y sz); [by intros [= <- <-]|].
  destruct (open sz (table st) pos) eqn:Hopen; simpl; [|by intros [= <- <-]].
  destruct (c && (m + 1 <? x sz * y sz - 1) && orphans sz dl _ pos);
    [by intros [= <- <-]|].
  destruct (until _ dl _) as [[r' s']| |] eqn:Hloop; [|by destruct r..].
  apply (until_invariant _
           (λ u, shaped sz (table u) ∧ ∃ j, iter u = Some j ∧ i < j)) in Hloop.
  - destruct Hloop as [_ (j & Hj & Hlt)]. destruct r'; [by intros [= <- <-]; eauto|].
    unfold unmark. destruct (cell (table s') pos); [|done].
    intros [= <- <-]. simpl. eauto.
  - intros d u r0 v [Hshu (j & Hj & Hlt)] Hrun. split; [by eapply path_iter_shaped|].
    destruct (IH _ _ _ _ _ _ Hshu Hj Hrun) as (k & Hk & Hlt'). exists k.
    split; [done|lia].
  - split; [simpl; auto with shape|]. by destruct Hone as (j & Hj & Hlt); eauto.
Qed.

(** From a position reached by the search, the build with the check makes
    no more calls than the build without it. *)
Lemma check_saves sz dl (Hsym : symmetric dl) fuel : ∀ pos m t i i' r r' s s',
  shaped sz t →
  Z.of_nat (zeros t) = x sz * y sz - m →
  0 ≤ m →
  path_iter true fuel sz dl pos m (mkState t (Some i)) = Done (r, s) →
  path_iter false fuel sz dl pos m (mkState t (Some i')) = Done (r', s') →
  ∃ j j', iter s = Some j ∧ iter s' = Some j' ∧ j - i ≤ j' - i'.
Proof.
  induction fuel as [|fuel IH]; intros pos m t i i' r r' s s' Hsh Hcount Hm;
    [done|].
  intros Hon Hoff.
  destruct (path_iter_ticks false sz dl (S fuel) pos m (mkState t (Some i'))
              r' s' i' Hsh eq_refl Hoff) as (j' & Hj' & Hlt').
  rewrite path_iter_step in Hon, Hoff by done. simpl in Hon, Hoff.
  assert (Hquick : Done (false, counted (mkState t (Some i))) = Done (r, s) →
                   ∃ j j', iter s = Some j ∧ iter s' = Some j' ∧ j - i ≤ j' - i').
  { intros [= <- <-]. exists (Z.succ i), j'. simpl. split; [done|].
    split; [done|lia]. }
  destruct (m >=? x sz * y sz).
  { injection Hon as <- <-. exists (Z.succ i), j'. simpl. split; [done|].
    split; [done|lia]. }
  destruct (open sz t pos) eqn:Hopen; simpl in Hon, Hoff; [|by apply Hquick].
  destruct (open_inside Hopen) as [Hin Hc].
  unfold marked in Hon, Hoff. simpl in Hon, Hoff.
  set (t1 := poke t pos (m + 1)) in *.
  assert (Hsh1 : shaped sz t1) by (unfold t1; auto with shape).
  assert (Hm1 : m + 1 ≠ 0) by lia.
  assert (Hcount1 : Z.of_nat (zeros t1) = x sz * y sz - (m + 1)).
  { pose proof (zeros_poke t pos (m + 1) Hc Hm1) as Hz. fold t1 in Hz. lia. }
  destruct ((m + 1 <? x sz * y sz - 1) && orphans sz dl t1 pos);
    [by apply Hquick|].
  clear Hquick.
  destruct (until (λ d, path_iter true _ _ _ _ _) dl _)
    as [[r1 s1]| |] eqn:Hloop; [|by destruct r..].
  destruct (until (λ d, path_iter false _ _ _ _ _) dl _)
    as [[r2 s2]| |] eqn:Hloop'; [|by destruct r'..].
  destruct (until_race (λ d, path_iter true fuel sz dl (shift pos d) (m + 1))
              (λ d, path_iter false fuel sz dl (shift pos d) (m + 1))
              (λ u u', table u = t1 ∧ table u' = t1
                       ∧ ∃ k k', iter u = Some k ∧ iter u' = Some k'
                                 ∧ k - i ≤ k' - i')
              (λ u u', ∃ k k', iter u = Some k ∧ iter u' = Some k'
                               ∧ k - i ≤ k' - i')
              dl) with (st := mkState t1 (Some (Z.succ i)))
                       (st' := mkState t1 (Some (Z.succ i')))
                       (r := r1) (r' := r2) (s := s1) (s' := s2)
    as [<- Hend]; [| |done|done|].
  - intros d [ta ia] [tb ib] ra rb sa sb Hd (Hta & Htb & k & k' & Hk & Hk' & Hle)
      Hra Hrb.
    simpl in Hta, Htb, Hk, Hk'. subst ta tb ia ib.
    destruct (check_agrees sz dl Hsym _ _ _ _ _ _ _ _ _ _ Hsh1 Hcount1
                ltac:(lia) Hra Hrb) as [<- _].
    destruct (IH _ _ _ _ _ _ _ _ _ Hsh1 Hcount1 ltac:(lia) Hra Hrb)
      as (n & n' & Hn & Hn' & Hle').
    split; [done|].
    assert (Hsum : ∃ k0 k0', iter sa = Some k0 ∧ iter sb = Some k0'
                             ∧ k0 - i ≤ k0' - i').
    { exists n, n'. split; [done|]. split; [done|lia]. }
    destruct ra; [done|].
    split; [by apply (path_iter_restores (st := mkState t1 (Some k)) Hsh1 Hra)|].
    split; [by apply (path_iter_restores (st := mkState t1 (Some k')) Hsh1 Hrb)|].
    done.
  - split; [done|]. split; [done|]. exists (Z.succ i), (Z.succ i').
    split; [done|]. split; [done|lia].
  - destruct r1.
    + injection Hon as <- <-. injection Hoff as <- <-. done.
    + destruct Hend as (Hs1 & Hs2 & Hk).
      rewrite (unmark_run t pos (m + 1)) in Hon, Hoff by done.
      injection Hon as <- <-. injection Hoff as <- <-. done.
Qed.

(** X7.  The look-ahead never costs calls.  For a move table that holds the
    opposite of each of its moves, on a board whose number of cells the code
    computes without overflow, and when the build without the check ends
    with a count that an [int] holds (it makes at most [INT_MAX] calls, so
    no counter overflows), [path_find] built with the check and [path_find]
    built without it give the same answer and the same table, and the count
    of calls of [path_iter] that the first reports is at least 1 and at most
    the count the second reports. *)
Theorem check_saves_calls sz dl pos t i :
  symmetric dl →
  shaped sz t →
  int_range (x sz * y sz) →
  count_fits (path_find false sz dl pos (mkState t (Some i))) →
  ∃ r t' n n',
    path_find true sz dl pos (mkState t (Some i)) = Done (r, mkState t' (Some n))
    ∧ path_find false sz dl pos (mkState t (Some i))
      = Done (r, mkState t' (Some n'))
    ∧ 1 ≤ n ≤ n' ∧ n' ≤ INT_MAX.
Proof.
  intros Hsym Hsh _ Hfits.
  destruct (path_find_Done true sz dl pos (mkState t (Some i)) Hsh)
    as (r & [t1 i1] & Hon).
  destruct (path_find_Done false sz dl pos (mkState t (Some i)) Hsh)
    as (r' & [t2 i2] & Hoff).
  rewrite Hoff in Hfits. simpl in Hfits.
  rewrite Hon, Hoff. rewrite path_find_run in Hon, Hoff by done.
  pose proof (shaped_start sz (mkState t (Some i))) as Hsh0.
  destruct (path_iter_ticks _ _ _ _ _ _ _ _ _ 0 Hsh0 eq_refl Hon)
    as (n & Hn & Hpos).
  simpl in Hn. subst i1.
  destruct (decide (0 < x sz ∧ 0 < y sz)) as [[Hx Hy]|Hdeg].
  - pose proof (zeros_start sz (mkState t (Some i)) Hx Hy) as Hcount.
    destruct (check_agrees sz dl Hsym _ _ _ _ _ _ _ _ _ _
                Hsh0 Hcount ltac:(done) Hon Hoff) as [<- Heq].
    destruct (check_saves sz dl Hsym _ _ _ _ _ _ _ _ _ _
                Hsh0 Hcount ltac:(done) Hon Hoff) as (j & j' & Hj & Hj' & Hle).
    simpl in Heq, Hj, Hj'. subst t2 i2. injection Hj as <-.
    destruct Hfits as [_ Hfits].
    exists r, t1, n, j'. split; [done|]. split; [done|lia].
  - rewrite path_iter_step in Hon, Hoff by done.
    rewrite (open_no_cells _ _ _ Hdeg) in Hon, Hoff. simpl in Hon, Hoff.
    exists r, t1, n, n.
    destruct (0 >=? x sz * y sz);
      injection Hon as <- <- <-; injection Hoff as <- <- <-;
      destruct Hfits as [_ Hfits];
      (split; [done|]); (split; [done|lia]).
Qed.

Lemma check_saves_calls_witness :
  ∃ r t' n n',
    path_find true (mkCoords 5 5) delta (mkCoords 0 0)
      (mkState (blank 5 5 0) (Some 0)) = Done (r, mkState t' (Some n))
    ∧ path_find false (mkCoords 5 5) delta (mkCoords 0 0)
        (mkState (blank 5 5 0) (Some 0)) = Done (r, mkState t' (Some n'))
    ∧ 1 ≤ n ≤ n' ∧ n' ≤ INT_MAX.
Proof.
  apply (check_saves_calls (mkCoords 5 5) delta (mkCoords 0 0) (blank 5 5 0) 0).
  - apply symmetric_delta.
  - split; [reflexivity|repeat constructor].
  - vm_compute. split; discriminate.
  - vm_compute. split; discriminate.
Defined.

(** ** The program *)

Lemma print_cells_Some sz t i js :
  shaped sz t → 0 ≤ i < y sz → Forall (λ j, 0 ≤ j < x sz) js →
  is_Some (print_cells t i js).
Proof.
  intros Hsh Hi. induction 1 as [|j js Hj _ [rest IH]]; simpl; [by eexists|].
  destruct (cell_inside sz t (mkCoords j i) Hsh) as [v Hv]; [by split|].
  rewrite Hv, IH. simpl. by eexists.
Qed.

Lemma print_rows_Some sz t rows :
  shaped sz t → Forall (λ i, 0 ≤ i < y sz) rows →
  is_Some (print_rows t (x sz) rows).
Proof.
  intros Hsh. induction 1 as [|i rows Hi _ [rest IH]]; simpl; [by eexists|].
  destruct (print_cells_Some sz t i (seqZ 0 (x sz)) Hsh Hi) as [row Hrow].
  { apply Forall_seqZ. intros j Hj. lia. }
  rewrite Hrow, IH. simpl. by eexists.
Qed.

(** The display loops of [main] go through on a table of the size of the
    board. *)
Lemma display_Some sz t :
  shaped sz t → is_Some (print_rows t (x sz) (seqZ 0 (y sz))).
Proof.
  intros Hsh. apply (print_rows_Some sz); [done|].
  apply Forall_seqZ. intros i Hi. lia.
Qed.

(** The count [path_find] leaves behind [iter] is at least 1. *)
Lemma path_find_counts c sz dl pos t i r s :
  shaped sz t →
  path_find c sz dl pos (mkState t (Some i)) = Done (r, s) →
  shaped sz (table s) ∧ ∃ n, iter s = Some n ∧ 1 ≤ n.
Proof.
  intros Hsh. rewrite path_find_run by done. intros Hrun.
  pose proof (shaped_start sz (mkState t (Some i))) as Hsh0.
  split; [by eapply path_iter_shaped|].
  destruct (path_iter_ticks _ _ _ _ _ _ _ _ _ 0 Hsh0 eq_refl Hrun)
    as (n & Hn & Hpos).
  exists n. split; [done|lia].
Qed.

(** X8.  What [main] prints.  For a board of [COLS] by [ROWS] cells, both
    positive and with a product that an [int] holds, the program exits with
    status 0 after printing either the line [No path found.], and then the
    board has no knight's tour from the start, or the rows of a table that
    numbers a knight's tour from the start; in both cases the line with the
    count comes last (nothing is said of the number in it).  The value the
    local variable [iter] holds at first does not show. *)
Theorem main_reports c COLS ROWS START_X START_Y iter0 :
  0 < COLS → 0 < ROWS → COLS * ROWS ≤ INT_MAX →
  ∃ n,
    ((main c COLS ROWS START_X START_Y iter0
      = Done (0, printf_no_path +:+ printf_iterations n)
      ∧ ∀ ps, ¬ tour (mkCoords COLS ROWS) delta (mkCoords START_X START_Y) ps)
     ∨ ∃ t ps out,
         main c COLS ROWS START_X START_Y iter0
         = Done (0, out +:+ printf_iterations n)
         ∧ print_rows t COLS (seqZ 0 ROWS) = Some out
         ∧ tour (mkCoords COLS ROWS) delta (mkCoords START_X START_Y) ps
         ∧ numbers t ps).
Proof.
  intros Hcols Hrows _. unfold main.
  set (sz := mkCoords COLS ROWS). set (start := mkCoords START_X START_Y).
  pose proof (shaped_blank sz 0) as Hsh. simpl in Hsh.
  set (st0 := mkState (blank (Z.to_nat COLS) (Z.to_nat ROWS) 0) (Some iter0)).
  assert (Hcells : 1 ≤ x sz * y sz) by (simpl; nia).
  assert (Hsym : c = true → symmetric delta) by (intros _; apply symmetric_delta).
  destruct (path_find_Done c sz delta start st0 Hsh) as (r & s & Hrun).
  rewrite Hrun.
  destruct (path_find_counts c sz delta start _ _ _ _ Hsh Hrun)
    as (Hshs & n & Hn & Hpos).
  exists n. rewrite Hn. destruct r; simpl.
  - right. destruct (path_find_sound c sz delta start st0 s Hsh Hcells Hrun)
      as (ps & Htour & Hnum).
    destruct (display_Some sz (table s) Hshs) as [out Hout]. simpl in Hout.
    exists (table s), ps, out. by rewrite Hout.
  - left. split; [done|]. intros ps Htour.
    destruct (path_find_complete c sz delta start st0 ps) as (s' & Hyes);
      [done..|].
    by rewrite Hrun in Hyes.
Qed.

Lemma main_reports_witness :
  ∃ n,
    ((main true 4 4 0 0 77 = Done (0, printf_no_path +:+ printf_iterations n)
      ∧ ∀ ps, ¬ tour (mkCoords 4 4) delta (mkCoords 0 0) ps)
     ∨ ∃ t ps out,
         main true 4 4 0 0 77 = Done (0, out +:+ printf_iterations n)
         ∧ print_rows t 4 (seqZ 0 4) = Some out
         ∧ tour (mkCoords 4 4) delta (mkCoords 0 0) ps
         ∧ numbers t ps).
Proof.
  apply (main_reports true 4 4 0 0 77); [lia|lia|vm_compute; discriminate].
Defined.

(** The two builds of [path_find] on tables of the same size, whatever the
    counters: same answer, same table. *)
Lemma path_find_check_agrees sz dl pos t i t' i' r r' s s' :
  symmetric dl → shaped sz t → shaped sz t' →
  path_find true sz dl pos (mkState t i) = Done (r, s) →
  path_find false sz dl pos (mkState t' i') = Done (r', s') →
  r = r' ∧ table s = table s'.
Proof.
  intros Hsym Hsh Hsh'. rewrite !path_find_run by done. intros Hon Hoff.
  destruct (decide (0 < x sz ∧ 0 < y sz)) as [[Hx Hy]|Hdeg].
  - by apply (check_agrees sz dl Hsym _ _ _ _ _ _ _ _ _ _
                (shaped_start sz (mkState t i))
                (zeros_start sz (mkState t i) Hx Hy) ltac:(done) Hon Hoff).
  - rewrite path_iter_step in Hon, Hoff by apply shaped_start.
    rewrite (open_no_cells _ _ _ Hdeg) in Hon.
    rewrite (open_no_cells _ _ _ Hdeg) in Hoff. simpl in Hon, Hoff.
    destruct (0 >=? x sz * y sz);
      injection Hon as <- <-; injection Hoff as <- <-; done.
Qed.

(** X9.  Path 1.2 prints what Pathfinder 1.0 prints, and then the line with
    the count.  For any [COLS] and [ROWS] with a product that an [int]
    holds, and any start, both programs exit with status 0, and the output
    of version 1.2, built with or without the check, is the output of
    version 1.0 (the same table, or the same message) followed by that line
    (nothing is said of the number in it). *)
Theorem main_1_2_extends_main_1_0 COLS ROWS START_X START_Y :
  int_range (COLS * ROWS) →
  ∃ out,
    V1_0.main COLS ROWS START_X START_Y = Done (0, out)
    ∧ ∀ c iter0, ∃ n,
        main c COLS ROWS START_X START_Y iter0
        = Done (0, out +:+ printf_iterations n).
Proof.
  intros _. unfold V1_0.main, main.
  set (sz := mkCoords COLS ROWS). set (start := mkCoords START_X START_Y).
  pose proof (shaped_blank sz 0) as Hsh. simpl in Hsh.
  set (t0 := blank (Z.to_nat COLS) (Z.to_nat ROWS) 0) in *.
  rewrite path_find_1_0_unchecked by done.
  destruct (path_find_Done false sz delta start (mkState t0 None) Hsh)
    as (r & s & Hrun).
  rewrite Hrun.
  pose proof (path_find_run false sz delta start (mkState t0 None) Hsh) as Hstep.
  rewrite Hrun in Hstep. symmetry in Hstep.
  pose proof (path_iter_shaped (shaped_start sz (mkState t0 None)) Hstep) as Hshs.
  destruct (display_Some sz (table s) Hshs) as [out Hout]. simpl in Hout.
  exists (if r then out else printf_no_path). split.
  { destruct r; simpl; [by rewrite Hout|done]. }
  intros c iter0.
  destruct (path_find_Done c sz delta start (mkState t0 (Some iter0)) Hsh)
    as (r' & s' & Hrun').
  rewrite Hrun'.
  destruct (path_find_counts c sz delta start _ _ _ _ Hsh Hrun')
    as (_ & n & Hn & Hpos).
  exists n. rewrite Hn.
  assert (Hsame : r' = r ∧ table s' = table s).
  { destruct c.
    - by apply (path_find_check_agrees sz delta start t0 (Some iter0) t0 None
                  r' r s' s symmetric_delta Hsh Hsh).
    - pose proof (path_find_run false sz delta start (mkState t0 (Some iter0)) Hsh)
        as Hstep'.
      rewrite Hrun' in Hstep'. symmetry in Hstep'.
      pose proof (blind_path_iter (λ _, None) ltac:(done) false sz delta
                    (S (Z.to_nat (x sz * y sz))) start 0
                    (start_state sz (mkState t0 (Some iter0)))) as Hblind.
      rewrite Hstep' in Hblind. unfold with_iter, start_state in Hblind.
      simpl in Hblind. unfold start_state in Hstep. simpl in Hstep.
      fold sz in Hblind. rewrite Hstep in Hblind. injection Hblind as -> ->.
      done. }
  destruct Hsame as [-> ->]. destruct r; simpl; [by rewrite Hout|done].
Qed.

Lemma main_1_2_extends_main_1_0_witness :
  ∃ out,
    V1_0.main 4 4 0 0 = Done (0, out)
    ∧ ∀ c iter0, ∃ n,
        main c 4 4 0 0 iter0 = Done (0, out +:+ printf_iterations n).
Proof.
  apply (main_1_2_extends_main_1_0 4 4 0 0). vm_compute. split; discriminate.
Defined.

(** ** The layout of the display *)

Lemma length_append s1 s2 :
  String.length (s1 +:+ s2) = (String.length s1 + String.length s2)%nat.
Proof. induction s1 as [|a s1 IH]; simpl; [done|]. by rewrite IH. Qed.

Lemma plain_append s1 s2 :
  plain s1 = true → plain s2 = true → plain (s1 +:+ s2) = true.
Proof.
  induction s1 as [|a s1 IH]; simpl; [done|].
  intros [Ha Hs1]%andb_true_iff Hs2. rewrite Ha. simpl. by apply IH.
Qed.

Lemma spaces_width n : String.length (spaces n) = n ∧ plain (spaces n) = true.
Proof.
  induction n as [|n [IHl IHp]]; simpl; [done|]. rewrite IHl.
  split; [done|]. exact IHp.
Qed.

Lemma pretty_N_char_digit d : field_char (pretty_N_char d) = true.
Proof.
  unfold pretty_N_char. by repeat case_match.
Qed.

(** The digits of a number below [10^k], written before [s], are at most
    [k]. *)
Lemma pretty_N_go_width (k : nat) : ∀ n s,
  (n < 10 ^ N.of_nat k)%N → plain s = true →
  (String.length (pretty_N_go n s) ≤ String.length s + k)%nat
  ∧ plain (pretty_N_go n s) = true.
Proof.
  induction k as [|k IH]; intros n s Hn Hs.
  - replace n with 0%N by (simpl in Hn; lia). rewrite pretty_N_go_0.
    split; [lia|done].
  - destruct (decide (n = 0%N)) as [->|Hpos].
    { rewrite pretty_N_go_0. split; [lia|done]. }
    rewrite pretty_N_go_step by lia.
    destruct (IH (n `div` 10)%N (String (pretty_N_char (n `mod` 10)) s))
      as [Hlen Hplain].
    + apply N.Div0.div_lt_upper_bound.
      replace (N.of_nat (S k)) with (N.succ (N.of_nat k)) in Hn by lia.
      by rewrite N.pow_succ_r' in Hn.
    + simpl. by rewrite pretty_N_char_digit.
    + split; [simpl in Hlen; lia|done].
Qed.

(** [%5d] takes exactly five characters for a number of at most five
    digits. *)
Lemma printf_5d_width v :
  0 ≤ v < 100000 →
  String.length (printf_5d v) = 5%nat ∧ plain (printf_5d v) = true.
Proof.
  intros Hv.
  assert (Hdigits : (String.length (pretty v) ≤ 5)%nat ∧ plain (pretty v) = true).
  { destruct v as [|p|p]; [by split; [simpl; lia|]| |lia].
    change (pretty (Z.pos p)) with (pretty_N_go (N.pos p) EmptyString).
    apply (pretty_N_go_width 5 (N.pos p) EmptyString); [|done].
    change (10 ^ N.of_nat 5)%N with 100000%N. lia. }
  destruct Hdigits as [Hlen Hplain]. unfold printf_5d.
  destruct (spaces_width (5 - String.length (pretty v))) as [Hsl Hsp].
  split; [rewrite length_append, Hsl; lia|by apply plain_append].
Qed.

Lemma print_cells_width t i js row :
  (∀ p v, cell t p = Some v → 0 ≤ v < 100000) →
  print_cells t i js = Some row →
  String.length row = (5 * length js)%nat ∧ plain row = true.
Proof.
  intros Hval. revert row. induction js as [|j js IH]; intros row; simpl.
  - by intros [= <-].
  - destruct (cell t (mkCoords j i)) as [v|] eqn:Hv; [|done]. simpl.
    destruct (print_cells t i js) as [rest|]; [|done]. simpl.
    intros [= <-]. destruct (IH rest eq_refl) as [Hlen Hplain].
    destruct (printf_5d_width v (Hval _ _ Hv)) as [Hlen5 Hplain5].
    split; [rewrite length_append; lia|by apply plain_append].
Qed.

Lemma print_rows_lines t COLS rows out :
  (∀ p v, cell t p = Some v → 0 ≤ v < 100000) →
  print_rows t COLS rows = Some out →
  ∃ lines, out = unlines lines ∧ length lines = length rows
           ∧ Forall (λ l, String.length l = (5 * Z.to_nat COLS)%nat
                          ∧ plain l = true) lines.
Proof.
  intros Hval. revert out. induction rows as [|i rows IH]; intros out; simpl.
  - intros [= <-]. by exists [].
  - destruct (print_cells t i (seqZ 0 COLS)) as [row|] eqn:Hrow; [|done]. simpl.
    destruct (print_rows t COLS rows) as [rest|]; [|done]. simpl.
    intros [= <-]. destruct (IH rest eq_refl) as (lines & -> & Hlen & Hall).
    exists (row :: lines). split; [done|]. split; [simpl; lia|].
    constructor; [|done].
    destruct (print_cells_width t i _ row Hval Hrow) as [Hw Hp].
    rewrite length_seqZ in Hw. done.
Qed.

(** The numbers a search leaves in the table are move numbers. *)
Lemma path_find_values c sz dl pos st r s :
  shaped sz (table st) →
  path_find c sz dl pos st = Done (r, s) →
  ∀ p v, cell (table s) p = Some v → 0 ≤ v ≤ Z.max 0 (x sz * y sz).
Proof.
  intros Hsh. rewrite path_find_run by done. intros Hrun p v Hv.
  destruct (path_iter_path c sz dl _ _ _ _ _ _ (shaped_start sz st)
              (simple_path_blank dl _ _) ltac:(by intros q ?) Hrun)
    as [(_ & _ & _ & Hval & _) _].
  apply Hval in Hv. destruct r; lia.
Qed.

(** X10.  The layout of what [main] prints.  For a board of [COLS] by
    [ROWS] cells, both positive, with fewer than 100000 cells, the output is
    the line [No path found.] or [ROWS] lines of exactly [5*COLS]
    characters, all of them spaces and digits, each followed by a line feed;
    the line with the number of calls comes last.  (From 100000 cells on a
    move number takes six characters and the columns no longer line up.) *)
Theorem main_table_layout c COLS ROWS START_X START_Y iter0 :
  0 < COLS → 0 < ROWS → COLS * ROWS < 100000 →
  ∃ n,
    main c COLS ROWS START_X START_Y iter0
    = Done (0, printf_no_path +:+ printf_iterations n)
    ∨ ∃ lines,
        main c COLS ROWS START_X START_Y iter0
        = Done (0, unlines lines +:+ printf_iterations n)
        ∧ length lines = Z.to_nat ROWS
        ∧ Forall (λ l, String.length l = (5 * Z.to_nat COLS)%nat
                       ∧ plain l = true) lines.
Proof.
  intros Hcols Hrows Hsmall. unfold main.
  set (sz := mkCoords COLS ROWS). set (start := mkCoords START_X START_Y).
  pose proof (shaped_blank sz 0) as Hsh. simpl in Hsh.
  set (st0 := mkState (blank (Z.to_nat COLS) (Z.to_nat ROWS) 0) (Some iter0)).
  destruct (path_find_Done c sz delta start st0 Hsh) as (r & s & Hrun).
  rewrite Hrun.
  destruct (path_find_counts c sz delta start _ _ _ _ Hsh Hrun)
    as (Hshs & n & Hn & _).
  exists n. rewrite Hn. destruct r; simpl; [right|by left].
  destruct (display_Some sz (table s) Hshs) as [out Hout]. simpl in Hout.
  rewrite Hout.
  destruct (print_rows_lines (table s) COLS (seqZ 0 ROWS) out) as
    (lines & -> & Hlen & Hall); [|done|].
  { intros p v Hv.
    pose proof (path_find_values c sz delta start st0 _ _ Hsh Hrun p v Hv) as Hb.
    simpl in Hb. lia. }
  exists lines. split; [done|]. split; [|done].
  by rewrite Hlen, length_seqZ.
Qed.

Lemma main_table_layout_witness :
  ∃ n,
    main true 5 5 0 0 0 = Done (0, printf_no_path +:+ printf_iterations n)
    ∨ ∃ lines,
        main true 5 5 0 0 0 = Done (0, unlines lines +:+ printf_iterations n)
        ∧ length lines = Z.to_nat 5
        ∧ Forall (λ l, String.length l = (5 * Z.to_nat 5)%nat
                       ∧ plain l = true) lines.
Proof.
  apply (main_table_layout true 5 5 0 0 0); lia.
Defined.

(** ** Bounds on the number of calls *)

Lemma call_bound_pos d k : 0 ≤ d → 1 ≤ call_bound d k.
Proof. intros Hd. induction k as [|k IH]; simpl; [done|]. nia. Qed.

(** [call_bound d k] is [1 + d + ... + d^k]. *)
Lemma call_bound_closed d k :
  (d - 1) * call_bound d k = d ^ (Z.of_nat k + 1) - 1.
Proof.
  induction k as [|k IH].
  - simpl. lia.
  - replace (Z.of_nat (S k) + 1) with (Z.succ (Z.of_nat k + 1)) by lia.
    rewrite Z.pow_succ_r by lia. simpl. nia.
Qed.

Section Counting.
Context {A : Type} (f : A → M bool) (P : State → Prop).

(** A loop whose rounds each count at least once and at most [B] times
    counts at most [B] times the number of rounds; when it answers true, the
    round that did has counted at least [L] times. *)
Lemma until_counts (B L : Z) l :
  (∀ a st r s i, a ∈ l → P st → iter st = Some i → f a st = Done (r, s) →
     P s ∧ ∃ j, iter s = Some j ∧ i < j ∧ j - i ≤ B ∧ (r = true → L ≤ j - i)) →
  ∀ st r s i, P st → iter st = Some i → until f l st = Done (r, s) →
    ∃ j, iter s = Some j ∧ i ≤ j ∧ j - i ≤ Z.of_nat (length l) * B
         ∧ (r = true → L ≤ j - i).
Proof.
  induction l as [|a l IH]; intros Hf st r s i HP Hi; simpl length; simpl until.
  - intros [= <- <-]. exists i. split; [done|]. split; [lia|]. split; [lia|done].
  - intros H. apply bind_Done in H as (b & st1 & Ha & H).
    destruct (Hf a st b st1 i) as (HP1 & j1 & Hj1 & Hlt & Hle & Hlow);
      [left|done..|].
    rewrite Nat2Z.inj_succ, Z.mul_succ_l.
    destruct b.
    + injection H as <- <-. exists j1. split; [done|]. split; [lia|].
      split; [nia|done].
    + destruct (IH (λ a0 u b0 v i0 Hin,
                      Hf a0 u b0 v i0 (list_elem_of_further _ _ _ Hin))
                  st1 r s j1 HP1 Hj1 H) as (j & Hj & Hge & Hle' & Hlow').
      exists j. split; [done|]. split; [lia|]. split; [lia|].
      intros Hr. specialize (Hlow' Hr). lia.
Qed.
End Counting.

(** A call counts itself and the calls below it: at least one, at most
    [call_bound] for the cells left, and more than the cells left when it
    answers true. *)
Lemma path_iter_calls c sz dl fuel : ∀ pos m st r s i,
  shaped sz (table st) → iter st = Some i →
  path_iter c fuel sz dl pos m st = Done (r, s) →
  ∃ j, iter s = Some j ∧ i < j
       ∧ j - i ≤ call_bound (Z.of_nat (length dl)) (Z.to_nat (x sz * y sz - m))
       ∧ (r = true → x sz * y sz - m < j - i).
Proof.
  induction fuel as [|fuel IH]; intros pos m st r s i Hsh Hi; [done|].
  rewrite path_iter_step by done.
  pose proof (call_bound_pos (Z.of_nat (length dl))
                (Z.to_nat (x sz * y sz - m)) ltac:(lia)) as Hone.
  assert (Hquick : ∀ b, (b = true → x sz * y sz ≤ m) →
            Done (b, counted st) = Done (r, s) →
            ∃ j, iter s = Some j ∧ i < j
                 ∧ j - i ≤ call_bound (Z.of_nat (length dl))
                                      (Z.to_nat (x sz * y sz - m))
                 ∧ (r = true → x sz * y sz - m < j - i)).
  { intros b Hb [= <- <-]. exists (Z.succ i). simpl. rewrite Hi.
    split; [done|]. split; [lia|]. split; [lia|]. intros Hr.
    specialize (Hb Hr). lia. }
  destruct (geb_cases m (x sz * y sz)) as [[Hfull ->]|[Hfull ->]];
    [by apply Hquick|].
  destruct (open sz (table st) pos) eqn:Hopen; simpl; [|by apply Hquick].
  destruct (c && (m + 1 <? x sz * y sz - 1) && orphans sz dl _ pos);
    [by apply Hquick|].
  clear Hquick Hone.
  replace (Z.to_nat (x sz * y sz - m))
    with (S (Z.to_nat (x sz * y sz - (m + 1)))) by lia.
  simpl call_bound.
  destruct (until _ dl _) as [[r' s']| |] eqn:Hloop; [|by destruct r..].
  destruct (until_counts (λ d, path_iter c fuel sz dl (shift pos d) (m + 1))
              (λ u, shaped sz (table u))
              (call_bound (Z.of_nat (length dl))
                          (Z.to_nat (x sz * y sz - (m + 1))))
              (x sz * y sz - m) dl) with (st := marked pos m st) (r := r')
              (s := s') (i := Z.succ i)
    as (j & Hj & Hge & Hle & Hlow); [| |by simpl; rewrite Hi|done|].
  - intros d u b v k _ Hshu Hk Hrun. split; [by eapply path_iter_shaped|].
    destruct (IH _ _ _ _ _ _ Hshu Hk Hrun) as (j & Hj & Hlt & Hle & Hlow).
    exists j. split; [done|]. split; [done|]. split; [done|].
    intros Hb. specialize (Hlow Hb). lia.
  - simpl. auto with shape.
  - assert (Hend : ∀ s0, iter s0 = Some j → Done (r', s0) = Done (r, s) →
              ∃ j0, iter s = Some j0 ∧ i < j0
                    ∧ j0 - i ≤ 1 + Z.of_nat (length dl)
                                   * call_bound (Z.of_nat (length dl))
                                       (Z.to_nat (x sz * y sz - (m + 1)))
                    ∧ (r = true → x sz * y sz - m < j0 - i)).
    { intros s0 Hs0 [= <- <-]. exists j. split; [done|]. split; [lia|].
      split; [lia|]. intros Hr. specialize (Hlow Hr). lia. }
    destruct r'; [by apply Hend|].
    unfold unmark. destruct (cell (table s') pos); [|done].
    intros [= <- <-]. by apply (Hend (mkState (poke (table s') pos 0) (iter s'))).
Qed.

(** X11.  How many calls a search takes.  On a board whose number of cells
    the code computes without overflow, and when the search ends with a
    count that an [int] holds (it makes at most [INT_MAX] calls, so the
    counter does not overflow), the count [path_find] reports is at least 1
    and at most [1 + d + d^2 + ... + d^(width*height)], where [d] is the
    number of moves of the table; when a tour is found it is more than
    [width*height], one call for each cell and one that finds the table
    full. *)
Theorem call_count_bounds c sz dl pos t i :
  shaped sz t →
  int_range (x sz * y sz) →
  count_fits (path_find c sz dl pos (mkState t (Some i))) →
  ∃ r s n,
    path_find c sz dl pos (mkState t (Some i)) = Done (r, s)
    ∧ iter s = Some n
    ∧ 1 ≤ n ≤ call_bound (Z.of_nat (length dl)) (Z.to_nat (x sz * y sz))
    ∧ n ≤ INT_MAX
    ∧ (r = true → x sz * y sz < n)
    ∧ (Z.of_nat (length dl) - 1)
      * call_bound (Z.of_nat (length dl)) (Z.to_nat (x sz * y sz))
      = Z.of_nat (length dl) ^ (Z.of_nat (Z.to_nat (x sz * y sz)) + 1) - 1.
Proof.
  intros Hsh _ Hfits.
  destruct (path_find_Done c sz dl pos (mkState t (Some i)) Hsh)
    as (r & s & Hrun).
  rewrite Hrun in Hfits. simpl in Hfits.
  exists r, s. rewrite Hrun. rewrite path_find_run in Hrun by done.
  destruct (path_iter_calls c sz dl _ _ _ _ _ _ 0
              (shaped_start sz (mkState t (Some i))) eq_refl Hrun)
    as (n & Hn & Hpos & Hle & Hlow).
  rewrite Hn in Hfits. destruct Hfits as [_ Hfits].
  exists n. split; [done|]. split; [done|].
  replace (x sz * y sz - 0) with (x sz * y sz) in Hle, Hlow by lia.
  split; [lia|]. split; [done|]. split.
  - intros Hr. specialize (Hlow Hr). lia.
  - apply call_bound_closed.
Qed.

Lemma call_count_bounds_witness :
  ∃ r s n,
    path_find true (mkCoords 3 3) delta (mkCoords 0 0)
      (mkState (blank 3 3 0) (Some 5)) = Done (r, s)
    ∧ iter s = Some n
    ∧ 1 ≤ n ≤ call_bound (Z.of_nat (length delta)) (Z.to_nat (3 * 3))
    ∧ n ≤ INT_MAX
    ∧ (r = true → 3 * 3 < n)
    ∧ (Z.of_nat (length delta) - 1)
      * call_bound (Z.of_nat (length delta)) (Z.to_nat (3 * 3))
      = Z.of_nat (length delta) ^ (Z.of_nat (Z.to_nat (3 * 3)) + 1) - 1.
Proof.
  apply (call_count_bounds true (mkCoords 3 3) delta (mkCoords 0 0)
           (blank 3 3 0) 5).
  - split; [reflexivity|repeat constructor].
  - vm_compute. split; discriminate.
  - vm_compute. split; discriminate.
Defined.

(** ** The test of a position *)

(** X12.  [is_available] tests the bounds before it reads.  For a position
    outside the announced bounds it answers false without looking at the
    table, whatever the table is (even one with no rows at all); on a table
    of the announced size it answers for every position, changes nothing,
    and answers true exactly when the position is inside the board and its
    cell holds 0. *)
Theorem is_available_spec sz pos st :
  (¬ inside sz pos → is_available sz pos st = Done (false, st))
  ∧ (shaped sz (table st) →
     ∃ b, is_available sz pos st = Done (b, st)
          ∧ (b = true ↔ available sz (table st) pos)).
Proof.
  split.
  - intros Hout. unfold is_available.
    destruct ((x pos <? 0) || (x pos >=? x sz) || (y pos <? 0)
              || (y pos >=? y sz)) eqn:Htest; [done|].
    exfalso. apply Hout.
    repeat apply orb_false_iff in Htest as [Htest ?].
    unfold inside. lia.
  - intros Hsh. exists (open sz (table st) pos).
    split; [by apply is_available_run|]. apply open_available.
Qed.

(** ** Boards without cells *)

Lemma print_rows_empty t COLS rows :
  COLS ≤ 0 →
  print_rows t COLS rows = Some (unlines (replicate (length rows) EmptyString)).
Proof.
  intros Hcols. induction rows as [|i rows IH]; simpl; [done|].
  rewrite (seqZ_nil 0 COLS) by done. simpl. by rewrite IH.
Qed.

(** X13.  [main] on a board without cells.  When [COLS*ROWS] is zero or
    less, and a value that an [int] holds ([INT_MIN <= COLS*ROWS], so that
    the product the code computes does not overflow), the program reports
    success: it prints [ROWS] empty lines (none
    when [ROWS] is zero or less) and then that the calculation completed
    after 1 iterations, and exits with status 0, wherever the start is. *)
Theorem main_empty_board c COLS ROWS START_X START_Y iter0 :
  INT_MIN ≤ COLS * ROWS ≤ 0 →
  main c COLS ROWS START_X START_Y iter0
  = Done (0, unlines (replicate (Z.to_nat ROWS) EmptyString)
             +:+ printf_iterations 1).
Proof.
  intros [_ Hnone]. unfold main.
  set (sz := mkCoords COLS ROWS).
  pose proof (shaped_blank sz 0) as Hsh. simpl in Hsh.
  rewrite path_find_run by done.
  rewrite path_iter_step by apply shaped_start.
  rewrite geb_true by (simpl; lia). simpl.
  destruct (decide (COLS ≤ 0)) as [Hcols|Hcols].
  - by rewrite print_rows_empty, length_seqZ.
  - rewrite (seqZ_nil 0 ROWS) by nia. simpl.
    by replace (Z.to_nat ROWS) with 0%nat by nia.
Qed.

Lemma main_empty_board_witness :
  main true 0 3 0 0 42
  = Done (0, unlines (replicate (Z.to_nat 3) EmptyString)
             +:+ printf_iterations 1).
Proof.
  apply (main_empty_board true 0 3 0 0 42). vm_compute. split; discriminate.
Defined.

(** ** Tables that are too small *)

Lemma cell_poke_None t p v q : cell t q = None → cell (poke t p v) q = None.
Proof.
  unfold cell, poke. destruct ((x q <? 0) || (y q <? 0)); [done|].
  destruct (t !! Z.to_nat (y q)) as [row|] eqn:Hrow.
  - intros Hcol.
    destruct (decide (Z.to_nat (y p) = Z.to_nat (y q))) as [Heq|Hne].
    + rewrite Heq, list_lookup_alter_eq, Hrow. simpl.
      apply lookup_ge_None. rewrite length_insert. by apply lookup_ge_None.
    + by rewrite list_lookup_alter_ne, Hrow.
  - intros _. apply lookup_ge_None in Hrow.
    by rewrite (lookup_ge_None_2 (alter _ _ t)) by (by rewrite length_alter).
Qed.

Lemma store_keeps_None q p v st :
  cell (table st) q = None →
  store p v st ≠ OutOfFuel
  ∧ ∀ s, store p v st = Done (tt, s) → cell (table s) q = None.
Proof.
  intros Hq. unfold store. destruct (cell (table st) p); [|done].
  split; [done|]. intros s [= <-]. simpl. by apply cell_poke_None.
Qed.

Section Overrun.
Context {A : Type} (f : A → M unit) (P : State → Prop).
Context (Hkeeps : ∀ b st, P st →
           f b st ≠ OutOfFuel ∧ ∀ s, f b st = Done (tt, s) → P s).

Lemma each_keeps l : ∀ st, P st →
  each f l st ≠ OutOfFuel ∧ ∀ s, each f l st = Done (tt, s) → P s.
Proof.
  induction l as [|b l IH]; intros st HP; simpl.
  - split; [done|]. by intros s [= <-].
  - unfold bind. destruct (Hkeeps b st HP) as [Hfuel Hpost].
    destruct (f b st) as [[[] s1]| |]; [|done..].
    apply IH. by apply Hpost.
Qed.

(** A loop with a round that goes out of range goes out of range. *)
Lemma each_hits l a :
  a ∈ l → (∀ st, P st → f a st = OutOfRange) →
  ∀ st, P st → each f l st = OutOfRange.
Proof.
  intros Hin Hbad. induction l as [|b l IH]; intros st HP; [by inversion Hin|].
  simpl. unfold bind. destruct (Hkeeps b st HP) as [Hfuel Hpost].
  destruct (f b st) as [[[] s1]| |] eqn:Hb; [|done..].
  apply elem_of_cons in Hin as [->|Hin].
  - by rewrite Hbad in Hb.
  - apply IH; [done|]. by apply Hpost.
Qed.
End Overrun.

(** X14.  A table smaller than announced is overrun.  When some position
    inside the announced bounds has no cell in the table (a row is missing
    or too short), [path_find] accesses the table out of range while it
    fills it with zeros, before any search is made: the size passed to
    [path_find] has to be the size of the table. *)
Theorem undersized_table_overrun c sz dl pos t it i j :
  0 ≤ i < y sz → 0 ≤ j < x sz →
  cell t (mkCoords j i) = None →
  path_find c sz dl pos (mkState t it) = OutOfRange.
Proof.
  intros Hi Hj Hnone. unfold path_find, bind.
  assert (Hstores : ∀ i0 j0 st, cell (table st) (mkCoords j i) = None →
            store (mkCoords j0 i0) 0 st ≠ OutOfFuel
            ∧ ∀ s, store (mkCoords j0 i0) 0 st = Done (tt, s) →
                   cell (table s) (mkCoords j i) = None).
  { intros i0 j0 st. apply store_keeps_None. }
  enough (Hfill : fill_zeros sz (mkState t it) = OutOfRange) by by rewrite Hfill.
  unfold fill_zeros.
  apply (each_hits _ (λ st, cell (table st) (mkCoords j i) = None)) with (a := i).
  - intros i0 st Hst. by apply each_keeps; [intros j0 st0; apply Hstores|].
  - apply elem_of_seqZ. lia.
  - intros st Hst.
    apply (each_hits _ (λ st, cell (table st) (mkCoords j i) = None))
      with (a := j).
    + intros j0 st0. apply Hstores.
    + apply elem_of_seqZ. lia.
    + intros st0 Hst0. unfold store. by rewrite Hst0.
    + done.
  - done.
Qed.

Lemma undersized_table_overrun_witness :
  path_find true (mkCoords 2 2) delta (mkCoords 0 0)
    (mkState [[0; 0]; [0]] (Some 0)) = OutOfRange.
Proof.
  apply (undersized_table_overrun true (mkCoords 2 2) delta (mkCoords 0 0)
           [[0; 0]; [0]] (Some 0) 1 1); [simpl; lia..|reflexivity].
Defined.

(** ** The two arithmetics agree in the range of [int] *)

Lemma wrap_id v : int_range v → wrap v = v.
Proof.
  unfold int_range, INT_MIN, INT_MAX, wrap. intros Hv.
  rewrite Z.mod_small by lia. lia.
Qed.

Lemma wrap_succ i : wrap (wrap i + 1) = wrap (Z.succ i).
Proof.
  unfold wrap.
  replace ((i + 2147483648) mod 4294967296 - 2147483648 + 1 + 2147483648)
    with ((i + 2147483648) mod 4294967296 + 1) by lia.
  rewrite Zplus_mod_idemp_l. do 2 f_equal. lia.
Qed.

Lemma wrap_range v : int_range (wrap v).
Proof.
  unfold int_range, INT_MIN, INT_MAX, wrap.
  pose proof (Z.mod_pos_bound (v + 2147483648) 4294967296 ltac:(lia)). lia.
Qed.

Section Simulation.
Context (h : option Z → option Z).

Lemma sim_blind {A} (c : M A) : iter_blind h c → simulates h c c.
Proof. done. Qed.

Lemma sim_bind {A B} (c' c : M A) (k' k : A → M B) :
  simulates h c' c → (∀ a, simulates h (k' a) (k a)) →
  simulates h (bind c' k') (bind c k).
Proof.
  intros Hc Hk st. unfold bind. rewrite Hc.
  destruct (c st) as [[a s]| |]; simpl; [apply Hk|done..].
Qed.

Lemma sim_until {A} (f' f : A → M bool) l :
  (∀ a, a ∈ l → simulates h (f' a) (f a)) →
  simulates h (until f' l) (until f l).
Proof.
  induction l as [|a l IH]; intros Hf; simpl; [by apply sim_blind, blind_ret|].
  apply sim_bind; [apply Hf; left|].
  intros []; [by apply sim_blind, blind_ret|].
  apply IH. intros b Hb. apply Hf. by right.
Qed.
End Simulation.

Lemma until_same {A} (f g : A → M bool) l :
  (∀ a, a ∈ l → f a = g a) → until f l = until g l.
Proof.
  induction l as [|a l IH]; intros Hfg; simpl; [done|].
  rewrite (Hfg a) by left. rewrite IH; [done|].
  intros b Hb. apply Hfg. by right.
Qed.

(** ** Positions *)

Lemma is_available_outside sz p : ¬ inside sz p → is_available sz p = ret false.
Proof.
  intros Hout. unfold is_available.
  destruct ((x p <? 0) || (x p >=? x sz) || (y p <? 0) || (y p >=? y sz))
    eqn:Htest; [done|].
  exfalso. apply Hout.
  repeat apply orb_false_iff in Htest as [Htest ?].
  unfold inside. lia.
Qed.

Lemma is_available_related sz p' p :
  same_or_outside sz p' p → is_available sz p' = is_available sz p.
Proof.
  intros [->|[Hout' Hout]]; [done|].
  by rewrite !is_available_outside.
Qed.

(** From a position of the board, a sum that overflows and the sum that
    does not are both outside the board. *)
Lemma shift_related sz p d :
  int_range (x sz) → int_range (y sz) →
  int_range (x d) → int_range (y d) →
  inside sz p →
  same_or_outside sz (Wrapped.shift p d) (shift p d).
Proof.
  unfold int_range, INT_MIN, INT_MAX. intros Hx Hy Hdx Hdy [Hpx Hpy].
  destruct (decide (x p + x d ≤ 2147483647 ∧ y p + y d ≤ 2147483647))
    as [[Hsx Hsy]|Hover].
  - left. unfold Wrapped.shift, shift.
    by rewrite !wrap_id by (unfold int_range, INT_MIN, INT_MAX; lia).
  - right. unfold inside, Wrapped.shift, shift, wrap. simpl. split.
    + intros [Hwx Hwy].
      destruct (decide (x p + x d ≤ 2147483647)) as [Hsx|Hsx].
      * assert (Hsy : 2147483647 < y p + y d) by lia.
        replace ((y p + y d + 2147483648) mod 4294967296)
          with (y p + y d + 2147483648 - 4294967296) in Hwy; [lia|].
        apply Z.mod_unique_pos with (q := 1); lia.
      * replace ((x p + x d + 2147483648) mod 4294967296)
          with (x p + x d + 2147483648 - 4294967296) in Hwx; [lia|].
        apply Z.mod_unique_pos with (q := 1); lia.
    + intros [Hwx Hwy]. lia.
Qed.

Section Agreement.
Context (sz : Coords) (dl : list Coords).
Context (Hx : int_range (x sz)) (Hy : int_range (y sz)).
Context (Hdl : Forall (λ d, int_range (x d) ∧ int_range (y d)) dl).

Lemma moves_related p d :
  inside sz p → d ∈ dl → same_or_outside sz (Wrapped.shift p d) (shift p d).
Proof.
  intros Hp Hd. destruct (proj1 (Forall_forall _ _) Hdl d Hd) as [Hdx Hdy].
  by apply shift_related.
Qed.

(** ** The queries *)

Lemma wrapped_is_blocked q :
  inside sz q → Wrapped.is_blocked sz dl q = is_blocked sz dl q.
Proof.
  intros Hq. unfold Wrapped.is_blocked, is_blocked.
  rewrite (until_same _ (λ d, is_available sz (shift q d))); [done|].
  intros d Hd. by apply is_available_related, moves_related.
Qed.

Lemma wrapped_blocks_open_space p :
  inside sz p → Wrapped.blocks_open_space sz dl p = blocks_open_space sz dl p.
Proof.
  intros Hp. unfold Wrapped.blocks_open_space, blocks_open_space.
  apply until_same. intros d Hd.
  destruct (moves_related p d Hp Hd) as [Heq|[Hout' Hout]].
  - rewrite Heq. destruct (decide (inside sz (shift p d))) as [Hin|Hout].
    + by rewrite wrapped_is_blocked.
    + by rewrite is_available_outside.
  - by rewrite !is_available_outside.
Qed.

(** ** The search *)

Lemma sim_count_iter : simulates (fmap wrap) Wrapped.count_iter count_iter.
Proof.
  intros [t [i|]]; unfold Wrapped.count_iter, count_iter, with_iter, lift_iter;
    simpl; [|done].
  by rewrite wrap_succ.
Qed.

Lemma sim_clear_iter : simulates (fmap wrap) clear_iter clear_iter.
Proof. by intros [t [i|]]. Qed.

Context (Hcells : int_range (x sz * y sz)).

Lemma wrapped_path_iter c fuel : ∀ p' p m,
  same_or_outside sz p' p → INT_MIN ≤ m →
  simulates (fmap wrap) (Wrapped.path_iter c fuel sz dl p' m)
            (path_iter c fuel sz dl p m).
Proof.
  induction fuel as [|fuel IH]; intros p' p m Hrel Hm; [by intros st|].
  cbn [Wrapped.path_iter path_iter].
  apply sim_bind; [apply sim_count_iter|]. intros _.
  rewrite (wrap_id (x sz * y sz)) by done.
  destruct (geb_cases m (x sz * y sz)) as [[Hfull ->]|[Hfull ->]];
    [by apply sim_blind, blind_ret|].
  rewrite (is_available_related sz p' p Hrel).
  destruct (decide (inside sz p)) as [Hin|Hout];
    [|rewrite is_available_outside by done; by intros st].
  assert (p' = p) as -> by (by destruct Hrel as [|[_ ?]]).
  apply sim_bind; [apply sim_blind, blind_is_available|].
  intros [|]; simpl; [|by apply sim_blind, blind_ret].
  assert (Hm1 : int_range (m + 1)).
  { destruct Hcells. unfold int_range in *. lia. }
  assert (Hless : int_range (x sz * y sz - 1)).
  { destruct Hcells. unfold int_range in *. lia. }
  rewrite (wrap_id (m + 1)), (wrap_id (x sz * y sz - 1)) by done.
  apply sim_bind; [apply sim_blind, blind_store|]. intros _.
  apply sim_bind.
  { destruct (c && (m + 1 <? x sz * y sz - 1)); [|by apply sim_blind, blind_ret].
    rewrite wrapped_blocks_open_space by done.
    apply sim_blind, blind_blocks_open_space. }
  intros [|].
  { apply sim_blind, blind_bind; [apply blind_store|]. intros _. apply blind_ret. }
  apply sim_bind.
  { apply sim_until. intros d Hd. apply IH; [by apply moves_related|lia]. }
  intros [|]; apply sim_blind; [apply blind_ret|].
  apply blind_bind; [apply blind_store|]. intros _. apply blind_ret.
Qed.

Lemma wrapped_path_find c pos :
  simulates (fmap wrap) (Wrapped.path_find c sz dl pos) (path_find c sz dl pos).
Proof.
  unfold Wrapped.path_find, path_find.
  apply sim_bind; [apply sim_blind, blind_fill_zeros|]. intros _.
  apply sim_bind; [apply sim_clear_iter|]. intros _.
  rewrite (wrap_id (x sz * y sz)) by done.
  apply wrapped_path_iter; [by left|done].
Qed.

End Agreement.

Lemma path_find_keeps_null c sz dl pos t r s :
  path_find c sz dl pos (mkState t None) = Done (r, s) → iter s = None.
Proof.
  unfold path_find. intros H.
  apply bind_Done in H as (u & st1 & Hfill & H).
  apply bind_Done in H as (u' & st2 & Hclear & H).
  apply fill_zeros_iter in Hfill. simpl in Hfill.
  injection Hclear as _ <-.
  rewrite Hfill in H.
  exact (path_iter_keeps_null c sz dl _ pos 0 (mkState (table st1) None) r s
           eq_refl H).
Qed.

(** X15.  In the range of [int] the two arithmetics agree.  For a board
    whose sides and number of cells are values that an [int] holds, and
    moves that are pairs of [int]s, the search computed with 32-bit
    wrap-around returns what the search computed in [Z] returns: the same
    answer and the same table, with the counter wrapped; the very same
    outcome when the count fits an [int] (no increment overflows), and when
    [iter] is [NULL].  A sum of a position of the board and a move that
    overflows is harmless, since it leaves the board either way.  Likewise
    [is_blocked], from any position to which the moves can be added without
    overflow. *)
Theorem wrapped_agrees c sz dl pos t i :
  int_range (x sz) → int_range (y sz) → int_range (x sz * y sz) →
  Forall (λ d, int_range (x d) ∧ int_range (y d)) dl →
  int_range i →
  Wrapped.path_find c sz dl pos (mkState t (Some i))
  = lift_iter (fmap wrap) (path_find c sz dl pos (mkState t (Some i)))
  ∧ (count_fits (path_find c sz dl pos (mkState t (Some i))) →
     Wrapped.path_find c sz dl pos (mkState t (Some i))
     = path_find c sz dl pos (mkState t (Some i)))
  ∧ Wrapped.path_find c sz dl pos (mkState t None)
    = path_find c sz dl pos (mkState t None)
  ∧ (Forall (λ d, int_range (x pos + x d) ∧ int_range (y pos + y d)) dl →
     Wrapped.is_blocked sz dl pos = is_blocked sz dl pos).
Proof.
  intros Hx Hy Hcells Hdl Hi.
  pose proof (wrapped_path_find sz dl Hx Hy Hdl Hcells c pos) as Hsim.
  assert (Hsome : Wrapped.path_find c sz dl pos (mkState t (Some i))
                  = lift_iter (fmap wrap)
                      (path_find c sz dl pos (mkState t (Some i)))).
  { rewrite <- Hsim. unfold with_iter. simpl. by rewrite wrap_id. }
  split; [done|]. split; [|split].
  - intros Hfits. rewrite Hsome.
    destruct (path_find c sz dl pos (mkState t (Some i))) as [[r [t' [n|]]]| |];
      simpl in *; [|done..].
    unfold with_iter. simpl. by rewrite wrap_id.
  - pose proof (Hsim (mkState t None)) as Hnull.
    unfold with_iter in Hnull. simpl in Hnull. rewrite Hnull.
    destruct (path_find c sz dl pos (mkState t None)) as [[r s]| |] eqn:Hrun;
      [|done..].
    apply path_find_keeps_null in Hrun. destruct s as [t' j].
    simpl in Hrun. subst j. done.
  - intros Hsums. unfold Wrapped.is_blocked, is_blocked.
    rewrite (until_same _ (λ d, is_available sz (shift pos d))); [done|].
    intros d Hd. destruct (proj1 (Forall_forall _ _) Hsums d Hd) as [Hsx Hsy].
    unfold Wrapped.shift, shift. by rewrite !wrap_id.
Qed.

Lemma wrapped_agrees_witness :
  Wrapped.path_find true (mkCoords 5 5) delta (mkCoords 0 0)
    (mkState (blank 5 5 0) (Some 7))
  = lift_iter (fmap wrap)
      (path_find true (mkCoords 5 5) delta (mkCoords 0 0)
         (mkState (blank 5 5 0) (Some 7)))
  ∧ (count_fits (path_find true (mkCoords 5 5) delta (mkCoords 0 0)
                   (mkState (blank 5 5 0) (Some 7))) →
     Wrapped.path_find true (mkCoords 5 5) delta (mkCoords 0 0)
       (mkState (blank 5 5 0) (Some 7))
     = path_find true (mkCoords 5 5) delta (mkCoords 0 0)
         (mkState (blank 5 5 0) (Some 7)))
  ∧ Wrapped.path_find true (mkCoords 5 5) delta (mkCoords 0 0)
      (mkState (blank 5 5 0) None)
    = path_find true (mkCoords 5 5) delta (mkCoords 0 0)
        (mkState (blank 5 5 0) None)
  ∧ (Forall (λ d, int_range (x (mkCoords 0 0) + x d)
                  ∧ int_range (y (mkCoords 0 0) + y d)) delta →
     Wrapped.is_blocked (mkCoords 5 5) delta (mkCoords 0 0)
     = is_blocked (mkCoords 5 5) delta (mkCoords 0 0)).
Proof.
  apply (wrapped_agrees true (mkCoords 5 5) delta (mkCoords 0 0)
           (blank 5 5 0) 7).
  - vm_compute. split; discriminate.
  - vm_compute. split; discriminate.
  - vm_compute. split; discriminate.
  - repeat constructor; vm_compute; discriminate.
  - vm_compute. split; discriminate.
Defined.

(** Where the two arithmetics part: with sides of -65536 the 32-bit product
    is 0 and the wrapped search succeeds at once; with the sides 46341 and
    -46341 the 32-bit product is positive and the wrapped search fails,
    where the product in [Z] is negative and the search in [Z] succeeds;
    with the counter at [INT_MAX] the next count is [INT_MIN]; and from
    ([INT_MIN], 0) the move ([INT_MIN], 0) wraps to the cell (0, 0), which
    is open. *)
Example wrapped_parts :
  Wrapped.path_find true (mkCoords (-65536) (-65536)) delta (mkCoords 0 0)
    (mkState [] (Some 0)) = Done (true, mkState [] (Some 1))
  ∧ Wrapped.path_find true (mkCoords 46341 (-46341)) delta (mkCoords 0 0)
      (mkState [] (Some 0)) = Done (false, mkState [] (Some 1))
  ∧ path_find true (mkCoords 46341 (-46341)) delta (mkCoords 0 0)
      (mkState [] (Some 0)) = Done (true, mkState [] (Some 1))
  ∧ Wrapped.count_iter (mkState [] (Some INT_MAX))
    = Done (tt, mkState [] (Some INT_MIN))
  ∧ Wrapped.is_blocked (mkCoords 1 1) [mkCoords INT_MIN 0] (mkCoords INT_MIN 0)
      (mkState [[0]] None) = Done (false, mkState [[0]] None)
  ∧ is_blocked (mkCoords 1 1) [mkCoords INT_MIN 0] (mkCoords INT_MIN 0)
      (mkState [[0]] None) = Done (true, mkState [[0]] None).
Proof. repeat split; reflexivity. Qed.
